(** * Humidity-driven ventilation controller: controle_ventilation_cave.ino

    A shallow embedding of the control logic of the sketch: the three pure
    functions [positionMoteur], [rotationMoteur], [puissanceMoteur] and one
    pass of [loop], with the arithmetic of the C++ source written out.

    Conventions.
    - [int] and [long] values are integers in [Z]; both types are taken 32
      bits wide where a range matters (conversions from [float]).  No
      arithmetic of the three functions can leave the range even of a 16-bit
      [int]: the only subtraction on the humidity is guarded by
      [50 < h < 80], and positions lie in [-1, 6].
    - [float] is IEEE-754 binary32, taken from the standard library's
      [SpecFloat] with a 24-bit significand and [emax = 128].
    - A conversion from [float] to an integer type whose truncated value does
      not fit has no defined result in C++; such computations return [None].
    - The hardware is seen through the calls made to it: one pass of [loop]
      maps the global [h_avant] and the sensor readings to the new [h_avant]
      and the list of calls, in order. *)

From Stdlib Require Import ZArith QArith Qround Qabs Qpower Bool List Lia.
From Stdlib Require Import Floats.SpecFloat.
From Stdlib Require Import String.
Import ListNotations.

Local Open Scope Z_scope.

(** ** binary32 arithmetic *)

Module Float32.

Definition prec : Z := 24.
Definition emax : Z := 128.

Definition float := spec_float.

(** Conversion of an integer to [float] (round to nearest, ties to even). *)
Definition of_Z (z : Z) : float := binary_normalize prec emax z 0 false.

Definition mul (x y : float) : float := SFmul prec emax x y.
Definition div (x y : float) : float := SFdiv prec emax x y.

(** Exact rational value [(-1)^s * m * 2^e] of a float; [None] for NaN and
    the infinities. *)
Definition to_Q (x : float) : option Q :=
  match x with
  | S754_zero _ => Some 0%Q
  | S754_finite s m e =>
      Some match e with
           | Zneg p => Qmake (cond_Zopp s (Zpos m)) (2 ^ p)
           | _ => inject_Z (cond_Zopp s (Zpos m) * 2 ^ e)
           end
  | S754_infinity _ | S754_nan => None
  end.

(** A well-formed binary32 datum. *)
Definition valid (x : float) : bool := valid_binary prec emax x.

End Float32.

(** ** Integer types and the Arduino [round] *)

(** [int] and [long] are both taken 32 bits wide. *)
Definition LONG_MIN : Z := - 2 ^ 31.
Definition LONG_MAX : Z := 2 ^ 31 - 1.

Definition in_long (z : Z) : bool := (LONG_MIN <=? z) && (z <=? LONG_MAX).

(** Truncation toward zero, the rounding of a C++ cast to an integer type. *)
Definition Qtrunc (q : Q) : Z := Z.quot (Qnum q) (Zpos (Qden q)).

(** Arduino's [round(x)] is [((x)>=0?(long)((x)+0.5):(long)((x)-0.5))]:
    round to nearest, halves away from zero.  The sum is formed in [double];
    for an [int] or a binary32 argument it truncates to the same integer as
    the exact sum, which is what is written here. *)
Definition round_Q (q : Q) : Z :=
  if Qle_bool 0 q then Qtrunc (q + (1 # 2)) else Qtrunc (q - (1 # 2)).

(** [round] at an [int] argument. *)
Definition round_int (k : Z) : Z := round_Q (inject_Z k).

(** [round] at a [float] argument: undefined on NaN, on the infinities and
    when the result does not fit a [long]. *)
Definition round_float (x : Float32.float) : option Z :=
  match Float32.to_Q x with
  | Some q => let r := round_Q q in if in_long r then Some r else None
  | None => None
  end.

(** Implicit conversion of a [float] to [int] (truncation toward zero). *)
Definition float_to_int (x : Float32.float) : option Z :=
  match Float32.to_Q x with
  | Some q => let r := Qtrunc q in if in_long r then Some r else None
  | None => None
  end.

(** ** Constants of the sketch *)

Definition NB_STEPS : Z := 6.
Definition MIN_RATE_POWER : Z := 50.
Definition MAX_RATE_POWER : Z := 80.
(** [16.67] as a [float]: the binary32 number nearest to 1667/100. *)
Definition PERCENT_POWER_STEP : Float32.float := S754_finite false 8739881 (-19).
Definition MIN_POWER : Z := 17.
Definition ROTATION_MIN : Z := 0.
Definition ROTATION_MAX : Z := 990.
Definition ROTATION_STEP : Z := 165.
Definition STEPS_PER_REVOLUTION : Z := 100.
Definition MOTOR_SPEED : Z := 100.
Definition DELAY : Z := 1800000.

(** ** The three pure functions *)

(** [int positionMoteur(int h)] *)
Definition positionMoteur (h : Z) : Z :=
  if h <? 0 then -1
  else if h <=? MIN_RATE_POWER then 0
  else if h >=? MAX_RATE_POWER then NB_STEPS
  else round_int (Z.quot (h - MIN_RATE_POWER) 5).

(** [int rotationMoteur(int h)], with the global [h_avant] it reads made an
    argument. *)
Definition rotationMoteur (h_avant h : Z) : Z :=
  let pos_h := positionMoteur h in
  let pos_ha := positionMoteur h_avant in
  let delta_pos :=
    if (pos_h >=? 0) && (pos_ha >=? 0) then pos_h - pos_ha else 0 in
  - delta_pos.

(** [int puissanceMoteur(int h)].  In the last branch the quotient is an
    [int], converted to [float] for the product with [PERCENT_POWER_STEP]. *)
Definition puissanceMoteur (h : Z) : option Z :=
  if h <=? MIN_RATE_POWER then Some MIN_POWER
  else if h >=? MAX_RATE_POWER then Some 100
  else round_float
         (Float32.mul (Float32.of_Z (Z.quot (h - MIN_RATE_POWER) 5))
                      PERCENT_POWER_STEP).

(** ** One pass of [loop] *)

(** The three local [float]s of [loop], as obtained from the sensor
    ([pression] already scaled to hPa). *)
Record Mesures : Type := {
  temperature : Float32.float;
  humidite : Float32.float;
  pression : Float32.float
}.

(** Calls made to the display, the stepper, the serial port and the clock. *)
Inductive event : Type :=
| ClearDisplay
| AffichageEcranOLED (t h p : Float32.float) (puissance : Z)
| StepperStep (n : Z)
| SerialPrintln
| Delay (ms : Z).

(** [round(humidite / 5) * 5], stored in a [long]. *)
Definition quantize (x : Float32.float) : option Z :=
  match round_float (Float32.div x (Float32.of_Z 5)) with
  | Some r => let h := r * 5 in if in_long h then Some h else None
  | None => None
  end.

(** [void loop()]: from the value of the global [h_avant] and the measures
    read, the new value of [h_avant] and the calls made, in order. *)
Definition loop (h_avant : Z) (m : Mesures) : option (Z * list event) :=
  if h_avant =? -1 then
    match float_to_int (humidite m) with
    | Some v => Some (v, [ClearDisplay])
    | None => None
    end
  else
    match quantize (humidite m) with
    | Some h =>
        let r := rotationMoteur h_avant h in
        match puissanceMoteur h with
        | Some p =>
            Some (h, [AffichageEcranOLED (temperature m) (humidite m) (pression m) p;
                      StepperStep (r * ROTATION_STEP);
                      SerialPrintln;
                      Delay DELAY])
        | None => None
        end
    | None => None
    end.

(** The relative moves requested from the stepper by a list of calls. *)
Fixpoint stepper_moves (evs : list event) : list Z :=
  match evs with
  | [] => []
  | StepperStep n :: evs' => n :: stepper_moves evs'
  | _ :: evs' => stepper_moves evs'
  end.

(** Measures with a given humidity and an arbitrary fixed rest. *)
Definition mesures_of (hum : Float32.float) : Mesures :=
  {| temperature := Float32.of_Z 12; humidite := hum; pression := Float32.of_Z 1013 |}.

(** ** The position mapping, as the specification words it *)

(** Section 4.2 of the specification, with its quotient read as a real
    division whose result is then rounded to the nearest integer. *)
Definition position_spec (h : Z) : Z :=
  if h <? 0 then -1
  else if h <=? 50 then 0
  else if h >=? 80 then 6
  else round_Q (inject_Z (h - 50) / inject_Z 5)%Q.

(** Section 4.3 of the specification for the middle range: the truncated
    number of steps scaled by the decimal 16.67, then rounded. *)
Definition power_steps_spec (h : Z) : Z :=
  round_Q (inject_Z (Z.quot (h - 50) 5) * (1667 # 100))%Q.

(** The two states of the control loop (section 4.5 of the specification),
    as told apart by the test [h_avant == -1] of [loop]. *)
Inductive phase : Type := UNINITIALIZED | STEADY.

Definition phase_of (h_avant : Z) : phase :=
  if h_avant =? -1 then UNINITIALIZED else STEADY.

(** Power percentage reached after [k] whole steps above the low threshold. *)
Definition step_power (k : Z) : Z :=
  match k with
  | 0 => 0 | 1 => 17 | 2 => 33 | 3 => 50 | 4 => 67 | _ => 83
  end.

(** Exactly one of four propositions holds. *)
Definition exactly_one (a b c d : Prop) : Prop :=
  (a /\ ~ b /\ ~ c /\ ~ d) \/ (~ a /\ b /\ ~ c /\ ~ d) \/
  (~ a /\ ~ b /\ c /\ ~ d) \/ (~ a /\ ~ b /\ ~ c /\ d).

(** ** Magnitudes of binary32 data *)

(** The exponent of the last place of binary32 at magnitude [2^z]. *)
Definition fexp32 : Z -> Z := fexp Float32.prec Float32.emax.

(** [m * 2^e <= B], for a mantissa [m >= 0] and an exponent [e <= 0]. *)
Definition le_mag (B m e : Z) : Prop := e <= 0 /\ 0 <= m <= B * 2 ^ (- e).

(** A finite float of magnitude at most [B]. *)
Definition mag_le (B : Z) (x : Float32.float) : Prop :=
  match x with
  | S754_zero _ => True
  | S754_finite _ m e => le_mag B (Zpos m) e
  | S754_infinity _ | S754_nan => False
  end.

(** [m] is the integer [v] scaled to the exponent [e <= 0]: [m * 2^e = v]. *)
Definition scaled (v m e : Z) : Prop := e <= 0 /\ m = v * 2 ^ (- e).

(** A mantissa with no bit lost so far. *)
Definition exact_record (m : Z) : shr_record :=
  {| shr_m := m; shr_r := false; shr_s := false |}.

(** A float of sign [s] whose magnitude is the integer [v]. *)
Definition holds_integer (s : bool) (v : Z) (x : Float32.float) : Prop :=
  match x with
  | S754_finite s' m e => s' = s /\ scaled v (Zpos m) e
  | _ => False
  end.

(** ** Successive passes *)

(** The Arduino core calls [loop] again and again; [run] is that iteration
    over the measures read at the successive passes, with the calls of all
    passes in order.  It stops being defined with the first pass that is. *)
Fixpoint run (h_avant : Z) (ms : list Mesures) : option (Z * list event) :=
  match ms with
  | [] => Some (h_avant, [])
  | m :: ms' =>
      match loop h_avant m with
      | Some (h', evs) =>
          match run h' ms' with
          | Some (h'', evs') => Some (h'', evs ++ evs')
          | None => None
          end
      | None => None
      end
  end.

(** Net number of elementary steps asked of the stepper. *)
Definition displacement (evs : list event) : Z :=
  fold_right Z.add 0 (stepper_moves evs).

(** The humidity of the measures quantizes to a non-negative value. *)
Definition reads_valid (m : Mesures) : bool :=
  match quantize (humidite m) with
  | Some h => 0 <=? h
  | None => false
  end.

(** The humidity of the measures is a binary32 number of magnitude at most
    ten million. *)
Definition in_range (m : Mesures) : bool :=
  match Float32.to_Q (humidite m) with
  | Some q => Float32.valid (humidite m) && Qle_bool (Qabs q) 10000000
  | None => false
  end.

(** The integers [lo, lo + 1, ..., lo + n - 1]. *)
Definition Zrange (lo : Z) (n : nat) : list Z :=
  map (fun i => lo + Z.of_nat i) (seq 0 n).

(** The integer reading [n] is quantized to a multiple of 5 at most 2 away. *)
Definition nearest5_ok (n : Z) : bool :=
  match quantize (Float32.of_Z n) with
  | Some q => (q mod 5 =? 0) && (Z.abs (q - n) <=? 2)
  | None => false
  end.

(** ** [setup] *)

(** [#define pinRelais 17] *)
Definition pinRelais : Z := 17.

(** Calls made by [setup], with their arguments. *)
Inductive init_call : Type :=
| SerialBegin (baud : Z)
| PinModeOutput (pin : Z)
| DigitalWriteLow (pin : Z)
| SerialPrintlnText (s : string)
| BmeBegin (addr : Z)
| EcranBegin (addr : Z)
| StepperSetSpeed (speed : Z)
| StepperHome (n : Z).

(** [setup] either returns or stays in one of its [while(1);]. *)
Inductive outcome : Type := Returns | Hangs.

(** [void setup()], from the answers of [bme.begin(0x76)] and
    [ecranOLED.begin(SSD1306_SWITCHCAPVCC, 0x3c)]: the calls made, in order,
    and how it ends.  The display is only asked when the sensor answered. *)
Definition setup (bme_ok ecran_ok : bool) : list init_call * outcome :=
  let debut :=
    [SerialBegin 9600; PinModeOutput pinRelais; DigitalWriteLow pinRelais;
     SerialPrintlnText "Initialisation du BME280"; BmeBegin 118] in
  if negb bme_ok then
    (debut ++ [SerialPrintlnText "--> ÉCHEC…"], Hangs)
  else
    let ecran :=
      debut ++ [SerialPrintlnText "--> RÉUSSIE !";
                SerialPrintlnText "Initialisation de l'écran OLED";
                EcranBegin 60] in
    if negb ecran_ok then
      (ecran ++ [SerialPrintlnText "--> ÉCHEC…"], Hangs)
    else
      (ecran ++ [SerialPrintlnText "--> RÉUSSIE !";
                 SerialPrintlnText "Initialisation du moteur";
                 StepperSetSpeed MOTOR_SPEED;
                 StepperHome (ROTATION_MAX * 2)],
       Returns).

(** The calls of [setup] that drive the stepper. *)
Definition is_motor_call (c : init_call) : bool :=
  match c with
  | StepperSetSpeed _ | StepperHome _ => true
  | _ => false
  end.

Definition is_ecran_call (c : init_call) : bool :=
  match c with
  | EcranBegin _ => true
  | _ => false
  end.

(** * Properties *)

(** [pow2_pos H e] adds [H : 0 < 2 ^ e], for an exponent [e] that [lia]
    finds non-negative. *)
Ltac pow2_pos H e :=
  assert (H : 0 < 2 ^ e) by (apply Z.pow_pos_nonneg; lia).

(** ** Values of binary32 data *)

(** [to_Q] is the usual value [(-1)^s * m * 2^e]. *)
Lemma to_Q_value (s : bool) (m : positive) (e : Z) :
  exists q, Float32.to_Q (S754_finite s m e) = Some q /\
            (q == inject_Z (cond_Zopp s (Zpos m)) * Qpower 2 e)%Q.
Proof.
  eexists; split; [reflexivity|].
  destruct e as [| p | p].
  - rewrite Z.mul_1_r. simpl Qpower. ring.
  - rewrite inject_Z_mult. rewrite Zpower_Qpower by lia. reflexivity.
  - rewrite Qmake_Qdiv. unfold Qdiv.
    change (Z.neg p) with (- Z.pos p). rewrite Qpower_opp.
    rewrite Pos2Z.inj_pow. rewrite Zpower_Qpower by lia. reflexivity.
Qed.

(** ** Rounding *)

Lemma Qtrunc_inject_Z (k : Z) : Qtrunc (inject_Z k) = k.
Proof. unfold Qtrunc; simpl. apply Z.quot_1_r. Qed.

(** [round] is the identity on an [int]. *)
Lemma round_int_id (k : Z) : round_int k = k.
Proof.
  unfold round_int, round_Q, Qle_bool, Qtrunc; simpl.
  rewrite Z.mul_1_r.
  destruct (Z.leb_spec 0 k) as [Hk | Hk].
  - replace (k * 2 + 1) with (1 + k * 2) by ring.
    rewrite Z.quot_add by lia. reflexivity.
  - replace (k * 2 + -1) with (-1 + k * 2) by ring.
    rewrite Z.quot_add by lia. reflexivity.
Qed.

(** On a non-negative numerator the truncating quotient of C++ is the
    Euclidean one. *)
Lemma quot5_bounds (h : Z) :
  MIN_RATE_POWER < h < MAX_RATE_POWER ->
  Z.quot (h - MIN_RATE_POWER) 5 = (h - 50) / 5 /\ 0 <= (h - 50) / 5 <= 5.
Proof.
  unfold MIN_RATE_POWER, MAX_RATE_POWER; intros Hh.
  rewrite Z.quot_div_nonneg by lia.
  split; [reflexivity|].
  split; [apply Z.div_pos; lia|].
  apply Z.lt_succ_r, Z.div_lt_upper_bound; lia.
Qed.

(** ** [positionMoteur] *)

Lemma positionMoteur_neg (h : Z) : h < 0 -> positionMoteur h = -1.
Proof.
  intros Hh; unfold positionMoteur.
  destruct (Z.ltb_spec h 0); [reflexivity | lia].
Qed.

Lemma positionMoteur_low (h : Z) :
  0 <= h <= MIN_RATE_POWER -> positionMoteur h = 0.
Proof.
  intros Hh; unfold positionMoteur.
  destruct (Z.ltb_spec h 0); [lia|].
  destruct (Z.leb_spec h MIN_RATE_POWER); [reflexivity | lia].
Qed.

Lemma positionMoteur_high (h : Z) :
  MAX_RATE_POWER <= h -> positionMoteur h = NB_STEPS.
Proof.
  intros Hh; unfold positionMoteur, MAX_RATE_POWER, MIN_RATE_POWER in *.
  destruct (Z.ltb_spec h 0); [lia|].
  destruct (Z.leb_spec h 50); [lia|].
  destruct (Z.geb_spec h 80); [reflexivity | lia].
Qed.

Lemma positionMoteur_mid (h : Z) :
  MIN_RATE_POWER < h < MAX_RATE_POWER -> positionMoteur h = (h - 50) / 5.
Proof.
  intros Hh; unfold positionMoteur.
  destruct (quot5_bounds h Hh) as [-> _].
  unfold MAX_RATE_POWER, MIN_RATE_POWER in *.
  destruct (Z.ltb_spec h 0); [lia|].
  destruct (Z.leb_spec h 50); [lia|].
  destruct (Z.geb_spec h 80); [lia|].
  apply round_int_id.
Qed.

(** The guards of [positionMoteur] cover every integer. *)
Lemma region_cases (h : Z) :
  h < 0 \/ 0 <= h <= MIN_RATE_POWER \/
  MIN_RATE_POWER < h < MAX_RATE_POWER \/ MAX_RATE_POWER <= h.
Proof. unfold MIN_RATE_POWER, MAX_RATE_POWER; lia. Qed.

Lemma positionMoteur_range (h : Z) : -1 <= positionMoteur h <= NB_STEPS.
Proof.
  destruct (region_cases h) as [H | [H | [H | H]]].
  - rewrite positionMoteur_neg by assumption. unfold NB_STEPS; lia.
  - rewrite positionMoteur_low by assumption. unfold NB_STEPS; lia.
  - rewrite positionMoteur_mid by assumption.
    destruct (quot5_bounds h H) as [_ Hb]. unfold NB_STEPS; lia.
  - rewrite positionMoteur_high by assumption. unfold NB_STEPS; lia.
Qed.

Lemma positionMoteur_sentinel (h : Z) : positionMoteur h = -1 <-> h < 0.
Proof.
  split; [|apply positionMoteur_neg].
  destruct (region_cases h) as [H | [H | [H | H]]]; [trivial | | |].
  - rewrite positionMoteur_low by assumption. discriminate.
  - rewrite positionMoteur_mid by assumption.
    destruct (quot5_bounds h H) as [_ Hb]. lia.
  - rewrite positionMoteur_high by assumption. discriminate.
Qed.

Lemma positionMoteur_nonneg (h : Z) : 0 <= h -> 0 <= positionMoteur h.
Proof.
  intros Hh. pose proof (positionMoteur_range h) as Hr.
  pose proof (positionMoteur_sentinel h) as Hs.
  destruct (Z.eq_dec (positionMoteur h) (-1)) as [E | E]; [apply Hs in E|]; lia.
Qed.

Lemma positionMoteur_mono (h1 h2 : Z) :
  h1 <= h2 -> positionMoteur h1 <= positionMoteur h2.
Proof.
  intros Hle.
  destruct (region_cases h1) as [H1 | [H1 | [H1 | H1]]].
  - rewrite (positionMoteur_neg h1) by assumption. apply positionMoteur_range.
  - rewrite (positionMoteur_low h1) by assumption.
    apply positionMoteur_nonneg; lia.
  - rewrite (positionMoteur_mid h1) by assumption.
    destruct (region_cases h2) as [H2 | [H2 | [H2 | H2]]];
      unfold MIN_RATE_POWER, MAX_RATE_POWER in *; try lia.
    + rewrite (positionMoteur_mid h2) by assumption.
      apply Z.div_le_mono; lia.
    + rewrite (positionMoteur_high h2) by assumption.
      destruct (quot5_bounds h1 H1) as [_ Hb]. unfold NB_STEPS; lia.
  - rewrite (positionMoteur_high h1) by assumption.
    rewrite (positionMoteur_high h2) by lia. lia.
Qed.

(** claim C4: on [0, 100] the position lies in [0, NB_STEPS] and does not
    decrease when the humidity grows. *)
Theorem positionMoteur_bounded_monotone (h1 h2 : Z) :
  0 <= h1 <= 100 -> 0 <= h2 <= 100 ->
  0 <= positionMoteur h1 <= NB_STEPS /\
  (h1 <= h2 -> positionMoteur h1 <= positionMoteur h2).
Proof.
  intros H1 H2. split.
  - split; [apply positionMoteur_nonneg; lia | apply positionMoteur_range].
  - apply positionMoteur_mono.
Qed.

Lemma positionMoteur_bounded_monotone_witness :
  0 <= positionMoteur 57 <= NB_STEPS /\
  (57 <= 73 -> positionMoteur 57 <= positionMoteur 73).
Proof. apply (positionMoteur_bounded_monotone 57 73); lia. Defined.

(** Between the thresholds the code and the real-valued reading of the
    specification agree exactly when the humidity is at most 2 above a
    multiple of 5; otherwise the specification is one position higher. *)
Lemma position_spec_mid (h : Z) :
  MIN_RATE_POWER < h < MAX_RATE_POWER ->
  position_spec h = positionMoteur h + (if h mod 5 <=? 2 then 0 else 1).
Proof.
  unfold MIN_RATE_POWER, MAX_RATE_POWER; intros Hh.
  assert (E : exists k r, h = 50 + 5 * k + r /\ 0 <= k <= 5 /\ 0 <= r <= 4).
  { exists ((h - 50) / 5), ((h - 50) mod 5).
    pose proof (Z.div_mod (h - 50) 5 ltac:(lia)).
    pose proof (Z.mod_pos_bound (h - 50) 5 ltac:(lia)).
    assert (0 <= (h - 50) / 5) by (apply Z.div_pos; lia).
    assert ((h - 50) / 5 < 6) by (apply Z.div_lt_upper_bound; lia).
    lia. }
  destruct E as (k & r & -> & Hk & Hr).
  assert (Ck : k = 0 \/ k = 1 \/ k = 2 \/ k = 3 \/ k = 4 \/ k = 5) by lia.
  assert (Cr : r = 0 \/ r = 1 \/ r = 2 \/ r = 3 \/ r = 4) by lia.
  destruct Ck as [-> | [-> | [-> | [-> | [-> | ->]]]]];
    destruct Cr as [-> | [-> | [-> | [-> | ->]]]];
    solve [reflexivity | lia].
Qed.

Lemma position_spec_outside (h : Z) :
  h <= MIN_RATE_POWER \/ MAX_RATE_POWER <= h -> position_spec h = positionMoteur h.
Proof.
  unfold MIN_RATE_POWER, MAX_RATE_POWER; intros Hh.
  unfold position_spec, positionMoteur, MIN_RATE_POWER, MAX_RATE_POWER, NB_STEPS.
  destruct (Z.ltb_spec h 0); [reflexivity|].
  destruct (Z.leb_spec h 50); [reflexivity|].
  destruct (Z.geb_spec h 80); [reflexivity | lia].
Qed.

(** claim C3, amended: [positionMoteur] is -1 below 0, 0 on [0, 50],
    [NB_STEPS] from 80 on, and in between the truncating integer quotient
    [(h - 50) / 5] (on which [round] changes nothing); exactly one of the
    four guards holds for every integer; and the value is the rounded real
    quotient of the specification whenever [h] is a multiple of 5. *)
Theorem positionMoteur_piecewise (h : Z) :
  (h < 0 -> positionMoteur h = -1) /\
  (0 <= h <= MIN_RATE_POWER -> positionMoteur h = 0) /\
  (MAX_RATE_POWER <= h -> positionMoteur h = NB_STEPS) /\
  (MIN_RATE_POWER < h < MAX_RATE_POWER ->
   positionMoteur h = round_int (Z.quot (h - MIN_RATE_POWER) 5) /\
   positionMoteur h = (h - 50) / 5) /\
  exactly_one (h < 0) (0 <= h <= MIN_RATE_POWER)
              (MIN_RATE_POWER < h < MAX_RATE_POWER) (MAX_RATE_POWER <= h) /\
  (h mod 5 = 0 -> positionMoteur h = position_spec h).
Proof.
  split; [apply positionMoteur_neg|].
  split; [apply positionMoteur_low|].
  split; [apply positionMoteur_high|].
  split.
  { intros Hh. split; [|apply positionMoteur_mid; assumption].
    rewrite round_int_id. rewrite positionMoteur_mid by assumption.
    destruct (quot5_bounds h Hh) as [E _]. symmetry; exact E. }
  split.
  { unfold exactly_one, MIN_RATE_POWER, MAX_RATE_POWER. lia. }
  intros Hm.
  destruct (region_cases h) as [H | [H | [H | H]]].
  - symmetry; apply position_spec_outside; unfold MIN_RATE_POWER; lia.
  - symmetry; apply position_spec_outside; lia.
  - rewrite (position_spec_mid h H), Hm. simpl. lia.
  - symmetry; apply position_spec_outside; lia.
Qed.

Lemma positionMoteur_piecewise_witness :
  positionMoteur (-3) = -1 /\ positionMoteur 42 = 0 /\
  positionMoteur 93 = NB_STEPS /\ positionMoteur 68 = (68 - 50) / 5 /\
  positionMoteur 65 = position_spec 65.
Proof.
  split; [apply (proj1 (positionMoteur_piecewise (-3))); lia|].
  destruct (positionMoteur_piecewise 42) as (_ & Hlow & _).
  destruct (positionMoteur_piecewise 93) as (_ & _ & Hhigh & _).
  destruct (positionMoteur_piecewise 68) as (_ & _ & _ & Hmid & _).
  destruct (positionMoteur_piecewise 65) as (_ & _ & _ & _ & _ & Hspec).
  split; [apply Hlow; unfold MIN_RATE_POWER; lia|].
  split; [apply Hhigh; unfold MAX_RATE_POWER; lia|].
  split; [apply Hmid; unfold MIN_RATE_POWER, MAX_RATE_POWER; lia|].
  apply Hspec; reflexivity.
Defined.

(** claim C3 as stated fails: at humidity 53 the specification's
    [round((h - 50) / 5)] is [round(0.6) = 1], the code returns 0. *)
Lemma positionMoteur_not_rounded_quotient :
  50 < 53 < 80 /\ positionMoteur 53 = 0 /\
  round_Q (inject_Z (53 - 50) / inject_Z 5)%Q = 1 /\
  positionMoteur 53 <> position_spec 53.
Proof. repeat split; try reflexivity; try lia. vm_compute; discriminate. Qed.

(** ** [rotationMoteur] *)

Lemma rotationMoteur_valid (h_avant h : Z) :
  0 <= h -> 0 <= h_avant ->
  rotationMoteur h_avant h = - (positionMoteur h - positionMoteur h_avant).
Proof.
  intros Hh Ha. unfold rotationMoteur.
  pose proof (positionMoteur_nonneg h Hh) as Ph.
  pose proof (positionMoteur_nonneg h_avant Ha) as Pa.
  destruct (Z.geb_spec (positionMoteur h) 0); [|lia].
  destruct (Z.geb_spec (positionMoteur h_avant) 0); [|lia].
  reflexivity.
Qed.

Lemma rotationMoteur_invalid (h_avant h : Z) :
  h < 0 \/ h_avant < 0 -> rotationMoteur h_avant h = 0.
Proof.
  intros Hneg. unfold rotationMoteur.
  destruct Hneg as [Hh | Ha].
  - rewrite (positionMoteur_neg h Hh). reflexivity.
  - rewrite (positionMoteur_neg h_avant Ha).
    rewrite andb_false_r. reflexivity.
Qed.

(** claim C6: when the current or the previous humidity maps to the
    sentinel -1 (that is, is negative), [rotationMoteur] returns 0, and the
    only move a pass of [loop] then asks of the stepper is a move of 0. *)
Theorem rotationMoteur_failsafe (h_avant h : Z) :
  positionMoteur h = -1 \/ positionMoteur h_avant = -1 ->
  (h < 0 \/ h_avant < 0) /\
  rotationMoteur h_avant h = 0 /\
  (forall m st evs,
      quantize (humidite m) = Some h ->
      loop h_avant m = Some (st, evs) ->
      Forall (fun n => n = 0) (stepper_moves evs)).
Proof.
  intros Hs.
  assert (Hneg : h < 0 \/ h_avant < 0).
  { destruct Hs as [Hs | Hs]; apply positionMoteur_sentinel in Hs; auto. }
  split; [exact Hneg|].
  split; [apply rotationMoteur_invalid; exact Hneg|].
  intros m st evs Hq Hl. unfold loop in Hl.
  destruct (h_avant =? -1).
  - destruct (float_to_int (humidite m)); [|discriminate].
    injection Hl as _ <-. constructor.
  - rewrite Hq in Hl.
    destruct (puissanceMoteur h); [|discriminate].
    injection Hl as _ <-. simpl.
    rewrite (rotationMoteur_invalid h_avant h Hneg).
    repeat constructor.
Qed.

Lemma rotationMoteur_failsafe_witness :
  rotationMoteur 60 (-5) = 0 /\
  Forall (fun n => n = 0)
         (stepper_moves
            [AffichageEcranOLED (Float32.of_Z 12) (Float32.of_Z (-7))
                                (Float32.of_Z 1013) 17;
             StepperStep 0; SerialPrintln; Delay DELAY]).
Proof.
  destruct (rotationMoteur_failsafe 60 (-5)) as (_ & Hr & Hl).
  - left; reflexivity.
  - split; [exact Hr|].
    apply (Hl (mesures_of (Float32.of_Z (-7))) (-5)); reflexivity.
Defined.

(** claim C7: with both humidities non-negative, exchanging the current and
    the previous humidity negates the rotation, and the rotation is the
    negated difference of the two positions. *)
Theorem rotationMoteur_antisymmetric (h_avant h : Z) :
  0 <= h -> 0 <= h_avant ->
  rotationMoteur h h_avant = - rotationMoteur h_avant h /\
  rotationMoteur h_avant h = - (positionMoteur h - positionMoteur h_avant).
Proof.
  intros Hh Ha.
  rewrite (rotationMoteur_valid h_avant h Hh Ha).
  rewrite (rotationMoteur_valid h h_avant Ha Hh).
  split; [ring | reflexivity].
Qed.

Lemma rotationMoteur_antisymmetric_witness :
  rotationMoteur 70 55 = - rotationMoteur 55 70 /\
  rotationMoteur 55 70 = - (positionMoteur 70 - positionMoteur 55).
Proof. apply (rotationMoteur_antisymmetric 55 70); lia. Defined.

(** claim C8: from a previous humidity of 50 (position 0) to a current one
    of 80 (position 6) the rotation is -6, and the stepper is asked to move
    by -6 * 165 = -990, whose magnitude is [ROTATION_MAX]. *)
Theorem rotation_full_swing :
  positionMoteur 50 = 0 /\ positionMoteur 80 = 6 /\
  rotationMoteur 50 80 = -6 /\
  rotationMoteur 50 80 * ROTATION_STEP = -990 /\
  Z.abs (rotationMoteur 50 80 * ROTATION_STEP) = ROTATION_MAX /\
  forall t p,
    option_map (fun r => stepper_moves (snd r))
      (loop 50 {| temperature := t; humidite := Float32.of_Z 80; pression := p |})
    = Some [-990].
Proof. repeat split. Qed.

(** ** [puissanceMoteur] *)

(** The constant is the correctly rounded binary32 value of 1667/100: it is
    what dividing 1667 by 100 in binary32 gives, and it lies within half a
    unit in the last place (2^-20) of the decimal. *)
Lemma PERCENT_POWER_STEP_nearest :
  Float32.div (Float32.of_Z 1667) (Float32.of_Z 100) = PERCENT_POWER_STEP /\
  Float32.valid PERCENT_POWER_STEP = true /\
  exists q, Float32.to_Q PERCENT_POWER_STEP = Some q /\
            (Qabs (q - (1667 # 100)) <= 1 # 2 ^ 20)%Q.
Proof.
  split; [reflexivity|]. split; [reflexivity|].
  eexists; split; [reflexivity|]. vm_compute. discriminate.
Qed.

(** The binary32 product and the exact decimal product round alike for
    each of the six step counts that occur. *)
Lemma round_steps (k : Z) :
  0 <= k <= 5 ->
  round_float (Float32.mul (Float32.of_Z k) PERCENT_POWER_STEP) = Some (step_power k)
  /\ round_Q (inject_Z k * (1667 # 100))%Q = step_power k.
Proof.
  intros Hk.
  assert (Ck : k = 0 \/ k = 1 \/ k = 2 \/ k = 3 \/ k = 4 \/ k = 5) by lia.
  destruct Ck as [-> | [-> | [-> | [-> | [-> | ->]]]]]; split; reflexivity.
Qed.

Lemma puissanceMoteur_low (h : Z) :
  h <= MIN_RATE_POWER -> puissanceMoteur h = Some MIN_POWER.
Proof.
  intros Hh; unfold puissanceMoteur.
  destruct (Z.leb_spec h MIN_RATE_POWER); [reflexivity | lia].
Qed.

Lemma puissanceMoteur_high (h : Z) :
  MAX_RATE_POWER <= h -> puissanceMoteur h = Some 100.
Proof.
  unfold puissanceMoteur, MIN_RATE_POWER, MAX_RATE_POWER; intros Hh.
  destruct (Z.leb_spec h 50); [lia|].
  destruct (Z.geb_spec h 80); [reflexivity | lia].
Qed.

Lemma puissanceMoteur_mid (h : Z) :
  MIN_RATE_POWER < h < MAX_RATE_POWER ->
  puissanceMoteur h = Some (step_power ((h - 50) / 5)).
Proof.
  intros Hh. destruct (quot5_bounds h Hh) as [E Hb].
  unfold puissanceMoteur. rewrite E.
  unfold MIN_RATE_POWER, MAX_RATE_POWER in *.
  destruct (Z.leb_spec h 50); [lia|].
  destruct (Z.geb_spec h 80); [lia|].
  apply round_steps; exact Hb.
Qed.

Lemma step_power_mono (j k : Z) :
  0 <= j <= k -> k <= 5 -> step_power j <= step_power k.
Proof.
  intros Hj Hk.
  assert (Cj : j = 0 \/ j = 1 \/ j = 2 \/ j = 3 \/ j = 4 \/ j = 5) by lia.
  assert (Ck : k = 0 \/ k = 1 \/ k = 2 \/ k = 3 \/ k = 4 \/ k = 5) by lia.
  destruct Cj as [-> | [-> | [-> | [-> | [-> | ->]]]]];
    destruct Ck as [-> | [-> | [-> | [-> | [-> | ->]]]]];
    simpl; lia.
Qed.

Lemma step_power_range (k : Z) :
  1 <= k <= 5 -> MIN_POWER <= step_power k <= 100.
Proof.
  intros Hk. unfold MIN_POWER.
  assert (Ck : k = 1 \/ k = 2 \/ k = 3 \/ k = 4 \/ k = 5) by lia.
  destruct Ck as [-> | [-> | [-> | [-> | ->]]]]; simpl; lia.
Qed.

(** [puissanceMoteur] always returns. *)
Lemma puissanceMoteur_total (h : Z) : exists p, puissanceMoteur h = Some p.
Proof.
  destruct (region_cases h) as [H | [H | [H | H]]].
  - exists MIN_POWER. apply puissanceMoteur_low. unfold MIN_RATE_POWER; lia.
  - exists MIN_POWER. apply puissanceMoteur_low. lia.
  - eexists. apply puissanceMoteur_mid. exact H.
  - exists 100. apply puissanceMoteur_high. exact H.
Qed.

(** Away from 51..54 the power is at least the floor and at most 100. *)
Lemma puissanceMoteur_range (h : Z) :
  ~ (50 < h < 55) ->
  exists p, puissanceMoteur h = Some p /\ MIN_POWER <= p <= 100.
Proof.
  intros Hex.
  destruct (region_cases h) as [H | [H | [H | H]]].
  - exists MIN_POWER. split; [|unfold MIN_POWER; lia].
    apply puissanceMoteur_low. unfold MIN_RATE_POWER; lia.
  - exists MIN_POWER. split; [|unfold MIN_POWER; lia].
    apply puissanceMoteur_low. lia.
  - eexists. split; [apply puissanceMoteur_mid; exact H|].
    destruct (quot5_bounds h H) as [_ Hb].
    apply step_power_range. unfold MIN_RATE_POWER in H.
    split; [|lia]. apply Z.div_le_lower_bound; lia.
  - exists 100. split; [|unfold MIN_POWER; lia].
    apply puissanceMoteur_high. exact H.
Qed.

(** claim C1, amended: for humidities in [0, 100] other than 51, 52, 53
    and 54 (in particular for every multiple of 5, which is all that [loop]
    passes), the power lies in [MIN_POWER, 100] and does not decrease when
    the humidity grows. *)
Theorem puissanceMoteur_bounded_monotone (h1 h2 : Z) :
  0 <= h1 <= 100 -> 0 <= h2 <= 100 ->
  ~ (50 < h1 < 55) -> ~ (50 < h2 < 55) ->
  exists p1 p2,
    puissanceMoteur h1 = Some p1 /\ puissanceMoteur h2 = Some p2 /\
    MIN_POWER <= p1 <= 100 /\
    (h1 <= h2 -> p1 <= p2).
Proof.
  intros D1 D2 X1 X2.
  destruct (puissanceMoteur_range h1 X1) as (p1 & E1 & R1).
  destruct (puissanceMoteur_range h2 X2) as (p2 & E2 & R2).
  exists p1, p2. repeat split; try assumption; try lia.
  intros Hle.
  destruct (region_cases h2) as [H2 | [H2 | [H2 | H2]]].
  - lia.
  - rewrite puissanceMoteur_low in E1, E2 by lia.
    injection E1 as <-. injection E2 as <-. lia.
  - rewrite (puissanceMoteur_mid h2 H2) in E2. injection E2 as <-.
    destruct (region_cases h1) as [H1 | [H1 | [H1 | H1]]];
      unfold MIN_RATE_POWER, MAX_RATE_POWER in *; try lia.
    + rewrite puissanceMoteur_low in E1 by (unfold MIN_RATE_POWER; lia).
      injection E1 as <-. lia.
    + rewrite (puissanceMoteur_mid h1) in E1
        by (unfold MIN_RATE_POWER, MAX_RATE_POWER; lia).
      injection E1 as <-.
      apply step_power_mono.
      * split; [apply Z.div_pos; lia | apply Z.div_le_mono; lia].
      * apply Z.lt_succ_r, Z.div_lt_upper_bound; lia.
  - rewrite (puissanceMoteur_high h2 H2) in E2. injection E2 as <-. lia.
Qed.

Lemma puissanceMoteur_bounded_monotone_witness :
  exists p1 p2,
    puissanceMoteur 60 = Some p1 /\ puissanceMoteur 75 = Some p2 /\
    MIN_POWER <= p1 <= 100 /\ (60 <= 75 -> p1 <= p2).
Proof. apply (puissanceMoteur_bounded_monotone 60 75); lia. Defined.

(** claim C1 as stated fails: 51 lies in [0, 100], the power there is 0,
    below [MIN_POWER], and below the power at 50. *)
Lemma puissanceMoteur_drops_at_51 :
  0 <= 51 <= 100 /\ puissanceMoteur 51 = Some 0 /\ ~ (MIN_POWER <= 0 <= 100) /\
  50 <= 51 /\ puissanceMoteur 50 = Some 17 /\ ~ (17 <= 0).
Proof.
  repeat split; try reflexivity; try lia; unfold MIN_POWER; lia.
Qed.

(** What a steady pass of [loop] hands to the three functions is a
    multiple of 5, hence never one of 51..54. *)
Lemma quantize_multiple_of_5 (x : Float32.float) (h : Z) :
  quantize x = Some h -> h mod 5 = 0 /\ ~ (50 < h < 55).
Proof.
  unfold quantize.
  destruct (round_float _) as [r|]; [|discriminate].
  simpl. destruct (in_long (r * 5)); [|discriminate].
  intros [= <-]. split; [apply Z.mod_mul; lia | lia].
Qed.

(** A steady pass whose reading can be quantized runs to its end, shows a
    power between the floor and 100, and moves the stepper by the rotation
    times [ROTATION_STEP]. *)
Lemma loop_steady (h_avant h : Z) (m : Mesures) :
  h_avant <> -1 -> quantize (humidite m) = Some h ->
  exists p,
    MIN_POWER <= p <= 100 /\
    loop h_avant m
    = Some (h, [AffichageEcranOLED (temperature m) (humidite m) (pression m) p;
                StepperStep (rotationMoteur h_avant h * ROTATION_STEP);
                SerialPrintln; Delay DELAY]).
Proof.
  intros Hs Hq.
  destruct (quantize_multiple_of_5 _ _ Hq) as [_ Hx].
  destruct (puissanceMoteur_range h Hx) as (p & Hp & Hr).
  exists p. split; [exact Hr|].
  unfold loop. destruct (Z.eqb_spec h_avant (-1)); [contradiction|].
  rewrite Hq, Hp. reflexivity.
Qed.

(** claim C5: strictly between the thresholds, the power is the rounding
    of the truncated step count [(h - 50) div 5] times 16.67. *)
Theorem puissanceMoteur_truncates_steps (h : Z) :
  MIN_RATE_POWER < h < MAX_RATE_POWER ->
  puissanceMoteur h = Some (power_steps_spec h) /\
  power_steps_spec h = round_Q (inject_Z ((h - 50) / 5) * (1667 # 100))%Q.
Proof.
  intros Hh. destruct (quot5_bounds h Hh) as [E Hb].
  unfold power_steps_spec. unfold MIN_RATE_POWER in E. rewrite E.
  split; [|reflexivity].
  rewrite (puissanceMoteur_mid h Hh).
  destruct (round_steps _ Hb) as [_ ->]. reflexivity.
Qed.

Lemma puissanceMoteur_truncates_steps_witness :
  puissanceMoteur 63 = Some (power_steps_spec 63) /\
  power_steps_spec 63 = round_Q (inject_Z ((63 - 50) / 5) * (1667 # 100))%Q.
Proof.
  apply (puissanceMoteur_truncates_steps 63).
  unfold MIN_RATE_POWER, MAX_RATE_POWER; lia.
Defined.

(** claim C10: a negative humidity is given the floor power; unlike
    [positionMoteur], which answers -1, [puissanceMoteur] has no branch for
    it and lets it fall under [h <= MIN_RATE_POWER]. *)
Theorem puissanceMoteur_negative (h : Z) :
  h < 0 -> puissanceMoteur h = Some MIN_POWER /\ positionMoteur h = -1.
Proof.
  intros Hh. split; [|apply positionMoteur_neg; exact Hh].
  apply puissanceMoteur_low. unfold MIN_RATE_POWER; lia.
Qed.

Lemma puissanceMoteur_negative_witness :
  puissanceMoteur (-5) = Some MIN_POWER /\ positionMoteur (-5) = -1.
Proof. apply (puissanceMoteur_negative (-5)); lia. Defined.

(** ** The first pass of [loop] *)

Lemma phase_of_steady (h_avant : Z) : phase_of h_avant = STEADY <-> h_avant <> -1.
Proof.
  unfold phase_of. destruct (Z.eqb_spec h_avant (-1)); split; intros;
    congruence.
Qed.

(** claim C2, amended: on the first pass ([h_avant == -1]) the loop stores
    the humidity reading truncated toward zero, not its nearest multiple of
    5, clears the display and asks nothing of the stepper; the next pass is
    a steady one unless the truncated reading is itself -1. *)
Theorem loop_first_pass (m : Mesures) (q : Q) :
  Float32.to_Q (humidite m) = Some q ->
  in_long (Qtrunc q) = true ->
  phase_of (-1) = UNINITIALIZED /\
  loop (-1) m = Some (Qtrunc q, [ClearDisplay]) /\
  stepper_moves [ClearDisplay] = [] /\
  (phase_of (Qtrunc q) = STEADY <-> Qtrunc q <> -1).
Proof.
  intros Hq Hl.
  split; [reflexivity|].
  split; [|split; [reflexivity | apply phase_of_steady]].
  unfold loop, float_to_int. simpl. rewrite Hq. simpl. rewrite Hl. reflexivity.
Qed.

Lemma loop_first_pass_witness :
  loop (-1) (mesures_of (Float32.of_Z 68)) = Some (68, [ClearDisplay]) /\
  (phase_of 68 = STEADY <-> 68 <> -1).
Proof.
  destruct (loop_first_pass (mesures_of (Float32.of_Z 68)) (8912896 # 131072))
    as (_ & Hloop & _ & Hphase).
  - reflexivity.
  - reflexivity.
  - split; [exact Hloop | exact Hphase].
Defined.

(** claim C2 as stated fails: a first reading of 53.0 leaves 53 in
    [h_avant], whereas the quantized humidity of that reading is 55. *)
Lemma first_pass_seed_not_quantized :
  loop (-1) (mesures_of (Float32.of_Z 53)) = Some (53, [ClearDisplay]) /\
  quantize (Float32.of_Z 53) = Some 55 /\
  53 mod 5 <> 0.
Proof. repeat split. vm_compute. discriminate. Qed.

(** The unquantized seed does reach [positionMoteur]: with the humidity
    steady at 53.0, the second pass compares position 1 (of 55) with
    position 0 (of 53) and moves the stepper by one step. *)
Lemma second_pass_after_seed_53 :
  loop (-1) (mesures_of (Float32.of_Z 53)) = Some (53, [ClearDisplay]) /\
  option_map (fun r => (fst r, stepper_moves (snd r)))
             (loop 53 (mesures_of (Float32.of_Z 53)))
  = Some (55, [- ROTATION_STEP]).
Proof. split; reflexivity. Qed.

(** A first reading of -1.5 truncates to -1: the next pass is a first pass
    again. *)
Lemma first_pass_may_repeat :
  Float32.to_Q (S754_finite true 12582912 (-23)) = Some (-12582912 # 8388608) /\
  loop (-1) (mesures_of (S754_finite true 12582912 (-23)))
  = Some (-1, [ClearDisplay]) /\
  phase_of (-1) = UNINITIALIZED.
Proof. repeat split. Qed.

(** ** [quantize] *)

(** A positive number lies between the powers of 2 its digit count gives. *)
Lemma digits2_pos_bounds (p : positive) :
  2 ^ Zpos (digits2_pos p) <= 2 * Zpos p /\ Zpos p < 2 ^ Zpos (digits2_pos p).
Proof.
  induction p as [p IH | p IH |]; simpl digits2_pos.
  - rewrite Pos2Z.inj_succ, Z.pow_succ_r by lia. lia.
  - rewrite Pos2Z.inj_succ, Z.pow_succ_r by lia. lia.
  - simpl. lia.
Qed.

(** A non-negative integer below [2^k] has at most [k] binary digits. *)
Lemma Zdigits2_le (m k : Z) : 0 <= m < 2 ^ k -> 0 <= k -> Zdigits2 m <= k.
Proof.
  intros [Hm Hlt] Hk. destruct m as [| p | p]; simpl; [assumption | | lia].
  destruct (digits2_pos_bounds p) as [Hlo _].
  apply Z.lt_succ_r. apply (Z.pow_lt_mono_r_iff 2); [lia | lia |].
  rewrite Z.pow_succ_r by lia.
  assert (2 ^ Z.pos (digits2_pos p) < 2 * 2 ^ k) by lia.
  lia.
Qed.

(** One right shift halves the mantissa. *)
Lemma shr_1_m (mrs : shr_record) :
  0 <= shr_m mrs -> shr_m (shr_1 mrs) = shr_m mrs / 2.
Proof.
  destruct mrs as [m r s]; simpl shr_m at 1 3. intros Hm.
  destruct m as [| [p | p |] | p]; simpl; try reflexivity; try lia.
  - rewrite Pos2Z.inj_xI. apply (Z.div_unique _ _ _ 1); lia.
  - rewrite Pos2Z.inj_xO. apply (Z.div_unique _ _ _ 0); lia.
Qed.

(** [p] right shifts divide the mantissa by [2^p]. *)
Lemma iter_shr_1_m (p : positive) (mrs : shr_record) :
  0 <= shr_m mrs -> shr_m (iter_pos shr_1 p mrs) = shr_m mrs / 2 ^ Zpos p.
Proof.
  revert mrs. induction p as [p IH | p IH |]; intros mrs Hm; simpl iter_pos.
  - pow2_pos Hp (Zpos p).
    assert (H1 : 0 <= shr_m (shr_1 mrs)).
    { rewrite shr_1_m by assumption. apply Z.div_pos; lia. }
    assert (H2 : 0 <= shr_m (iter_pos shr_1 p (shr_1 mrs))).
    { rewrite IH by assumption. apply Z.div_pos; lia. }
    rewrite IH by assumption. rewrite IH by assumption. rewrite shr_1_m by assumption.
    rewrite !Z.div_div by lia.
    f_equal. rewrite <- Z.pow_add_r by lia.
    rewrite <- Z.pow_succ_r by lia. f_equal. lia.
  - pow2_pos Hp (Zpos p).
    assert (H2 : 0 <= shr_m (iter_pos shr_1 p mrs)).
    { rewrite IH by assumption. apply Z.div_pos; lia. }
    rewrite IH by assumption. rewrite IH by assumption.
    rewrite Z.div_div by lia.
    f_equal. rewrite <- Z.pow_add_r by lia. f_equal. lia.
  - rewrite shr_1_m by assumption. reflexivity.
Qed.

Lemma fexp32_eq (z : Z) : fexp32 z = Z.max (z - 24) (-149).
Proof. reflexivity. Qed.

(** A bounded magnitude bounds the position of the leading bit. *)
Lemma le_mag_digits (B m e k : Z) :
  le_mag B m e -> B < 2 ^ k -> 0 <= k -> Zdigits2 m + e <= k.
Proof.
  intros (He & Hm0 & Hm) HB Hk.
  pow2_pos Hp (- e).
  assert (Zdigits2 m <= k - e); [|lia].
  apply Zdigits2_le; [|lia].
  split; [assumption|].
  replace (k - e) with (k + - e) by ring. rewrite Z.pow_add_r by lia.
  nia.
Qed.

(** Aligning a mantissa to the binary32 exponent does not raise the
    magnitude. *)
Lemma shr_fexp_mag (B m e : Z) (l : location) :
  le_mag B m e -> 0 <= B < 2 ^ 24 ->
  le_mag B (shr_m (fst (shr_fexp Float32.prec Float32.emax m e l)))
           (snd (shr_fexp Float32.prec Float32.emax m e l)).
Proof.
  intros Hmag HB.
  pose proof (le_mag_digits B m e 24 Hmag (proj2 HB) ltac:(lia)) as Hd.
  destruct Hmag as (He & Hm0 & Hm).
  unfold shr_fexp, shr. fold fexp32. rewrite fexp32_eq.
  destruct (Z.max (Zdigits2 m + e - 24) (-149) - e) as [| n | n] eqn:En;
    simpl fst; simpl snd.
  - destruct l as [|[]]; simpl; repeat split; assumption.
  - assert (Hm' : shr_m (shr_record_of_loc m l) = m) by (destruct l as [|[]]; reflexivity).
    rewrite iter_shr_1_m by (rewrite Hm'; assumption).
    rewrite Hm'.
    pow2_pos Hp (Zpos n).
    assert (He' : e + Zpos n <= 0) by lia.
    split; [assumption|]. split; [apply Z.div_pos; lia|].
    apply Z.div_le_upper_bound; [lia|].
    replace (- e) with (Zpos n + - (e + Zpos n)) in Hm by ring.
    rewrite Z.pow_add_r in Hm by lia. lia.
  - destruct l as [|[]]; simpl; repeat split; assumption.
Qed.

Lemma round_nearest_even_bounds (m : Z) (l : location) :
  m <= round_nearest_even m l <= m + 1.
Proof.
  destruct l as [|[]]; simpl; try lia. destruct (Z.even m); lia.
Qed.

Lemma le_mag_succ (B m e m' : Z) :
  le_mag B m e -> 0 <= B -> m <= m' <= m + 1 -> le_mag (B + 1) m' e.
Proof.
  intros (He & Hm0 & Hm) HB Hm'.
  pow2_pos Hp (- e).
  split; [assumption|]. split; [lia | nia].
Qed.

(** Rounding to binary32 raises a magnitude below [2^24] by at most 1, and
    gives a finite number. *)
Lemma binary_round_aux_mag (B : Z) (s : bool) (m e : Z) (l : location) :
  le_mag B m e -> 0 <= B -> B + 1 < 2 ^ 24 ->
  mag_le (B + 1) (binary_round_aux Float32.prec Float32.emax s m e l).
Proof.
  intros Hmag HB0 HB.
  unfold binary_round_aux.
  pose proof (shr_fexp_mag B m e l Hmag ltac:(lia)) as H1.
  destruct (shr_fexp Float32.prec Float32.emax m e l) as [mrs' e'].
  simpl fst in H1; simpl snd in H1.
  pose proof (le_mag_succ B _ e' _ H1 HB0
                (round_nearest_even_bounds (shr_m mrs') (loc_of_shr_record mrs')))
    as H2.
  pose proof (shr_fexp_mag (B + 1) _ e' loc_Exact H2 ltac:(lia)) as H3.
  destruct (shr_fexp Float32.prec Float32.emax
              (round_nearest_even (shr_m mrs') (loc_of_shr_record mrs')) e' loc_Exact)
    as [mrs'' e''].
  simpl fst in H3; simpl snd in H3.
  destruct H3 as (He & Hm0 & Hm).
  destruct (shr_m mrs'') as [| p | p]; [exact I | | lia].
  destruct (Z.leb_spec e'' (Float32.emax - Float32.prec)) as [_ | Hgt].
  - simpl. repeat split; assumption.
  - unfold Float32.emax, Float32.prec in Hgt. lia.
Qed.

(** Dividing by 5 a float of magnitude at most [5 * B]. *)
Lemma div5_mag (B : Z) (s : bool) (m : positive) (e : Z) :
  le_mag (5 * B) (Zpos m) e -> 0 <= B -> 5 * B < 2 ^ 24 ->
  mag_le (B + 1) (Float32.div (S754_finite s m e) (Float32.of_Z 5)).
Proof.
  intros Hmag HB0 HB.
  change (Float32.of_Z 5) with (S754_finite false 10485760 (-21)).
  unfold Float32.div, SFdiv, SFdiv_core_binary.
  change (Zdigits2 (Zpos 10485760)) with 24.
  fold fexp32. rewrite fexp32_eq.
  pose proof (le_mag_digits _ _ _ 24 Hmag HB ltac:(lia)) as Hd.
  destruct Hmag as (He & Hm0 & Hm).
  set (e0 := Z.min (Z.max (Zdigits2 (Zpos m) + e - (24 + -21) - 24) (-149))
                   (e - -21)) in *.
  assert (He0 : e0 <= 0) by (unfold e0; lia).
  assert (Hs : 0 <= e - -21 - e0) by (unfold e0; lia).
  set (m' := match e - -21 - e0 with
             | 0 => Zpos m
             | Zpos _ => Z.shiftl (Zpos m) (e - -21 - e0)
             | Zneg _ => 0
             end).
  assert (Hm' : m' = Zpos m * 2 ^ (e - -21 - e0)).
  { unfold m'. destruct (e - -21 - e0) as [| n | n] eqn:En.
    - rewrite Z.pow_0_r. lia.
    - apply Z.shiftl_mul_pow2. lia.
    - lia. }
  clearbody m'.
  destruct (Z.div_eucl m' (Zpos 10485760)) as [q r] eqn:Ediv.
  assert (Hq : q = m' / 10485760) by (unfold Z.div; rewrite Ediv; reflexivity).
  apply binary_round_aux_mag; [|assumption|lia].
  pow2_pos Hp0 (- e0).
  pow2_pos Hp1 (- e).
  pow2_pos Hp2 (e - -21 - e0).
  split; [assumption|]. subst q. split.
  - apply Z.div_pos; lia.
  - apply Z.div_le_upper_bound; [lia|].
    rewrite Hm'.
    assert (Hpow : 2 ^ (- e) * 2 ^ (e - -21 - e0) = 2 ^ 21 * 2 ^ (- e0)).
    { rewrite <- !Z.pow_add_r by lia. f_equal. lia. }
    change (2 ^ 21) with 2097152 in Hpow.
    nia.
Qed.

(** [round] maps [[-B, B]] into itself. *)
Lemma round_Q_bound (n : Z) (d : positive) (B : Z) :
  0 <= B -> - (B * Zpos d) <= n <= B * Zpos d -> - B <= round_Q (n # d) <= B.
Proof.
  intros HB Hn.
  unfold round_Q, Qle_bool, Qtrunc, Qminus, Qplus, Qopp; simpl Qnum; simpl Qden.
  rewrite Z.mul_1_r, Z.mul_0_l, Pos2Z.inj_mul.
  destruct (Z.leb_spec 0 n) as [Hpos | Hneg].
  - rewrite Z.quot_div_nonneg by lia. split.
    + assert (0 <= (n * 2 + Z.pos d) / (Z.pos d * 2)) by (apply Z.div_pos; lia).
      lia.
    + apply Z.lt_succ_r, Z.div_lt_upper_bound; lia.
  - replace (n * 2 + Z.neg d) with (- (Z.pos d - n * 2)) by lia.
    rewrite Z.quot_opp_l by lia. rewrite Z.quot_div_nonneg by lia. split.
    + assert ((Z.pos d - n * 2) / (Z.pos d * 2) < B + 1)
        by (apply Z.div_lt_upper_bound; lia).
      lia.
    + assert (0 <= (Z.pos d - n * 2) / (Z.pos d * 2)) by (apply Z.div_pos; lia).
      lia.
Qed.

Lemma cond_Zopp_abs (s : bool) (m : positive) :
  - Zpos m <= cond_Zopp s (Zpos m) <= Zpos m /\
  Z.abs (cond_Zopp s (Zpos m)) = Zpos m.
Proof. destruct s; simpl; lia. Qed.

(** A float of magnitude at most [B] rounds to an integer of magnitude at
    most [B]. *)
Lemma mag_le_round (B : Z) (y : Float32.float) :
  mag_le B y -> 0 <= B ->
  exists q, Float32.to_Q y = Some q /\ - B <= round_Q q <= B.
Proof.
  intros Hy HB. destruct y as [s | s | | s m e]; simpl in Hy; try contradiction.
  - exists 0%Q. split; [reflexivity|]. change (round_Q 0) with 0. lia.
  - destruct Hy as (He & _ & Hm).
    eexists; split; [reflexivity|].
    destruct (cond_Zopp_abs s m) as [Hc _].
    destruct e as [| p | p]; [| lia |].
    + rewrite Z.mul_1_r in *. unfold inject_Z. apply round_Q_bound; lia.
    + simpl Z.opp in Hm. apply round_Q_bound; [assumption|].
      rewrite Pos2Z.inj_pow. lia.
Qed.

(** A well-formed float whose value is at most [A] in magnitude. *)
Lemma valid_le_mag (A : Z) (s : bool) (m : positive) (e : Z) (q : Q) :
  Float32.valid (S754_finite s m e) = true ->
  Float32.to_Q (S754_finite s m e) = Some q ->
  (Qabs q <= inject_Z A)%Q -> A < 2 ^ 24 ->
  le_mag A (Zpos m) e.
Proof.
  intros Hv Hq Hle HA.
  destruct (cond_Zopp_abs s m) as [_ Habs].
  simpl in Hq. injection Hq as <-.
  destruct e as [| p | p].
  - unfold inject_Z, Qabs, Qle in Hle; simpl in Hle.
    rewrite Z.mul_1_r in Hle. rewrite Z.mul_1_r, Habs in Hle.
    split; [lia|]. simpl. lia.
  - exfalso.
    unfold Float32.valid, valid_binary, bounded, canonical_mantissa in Hv.
    apply andb_true_iff in Hv. destruct Hv as [Hc _].
    apply Z.eqb_eq in Hc. fold fexp32 in Hc. rewrite fexp32_eq in Hc.
    destruct (digits2_pos_bounds m) as [Hlo _].
    assert (Hd : Zpos (digits2_pos m) = 24) by lia.
    rewrite Hd in Hlo.
    unfold inject_Z, Qabs, Qle in Hle; simpl Qnum in Hle; simpl Qden in Hle.
    rewrite Z.abs_mul, Habs, !Z.mul_1_r in Hle.
    assert (2 <= 2 ^ Zpos p).
    { change 2 with (2 ^ 1) at 1. apply Z.pow_le_mono_r; lia. }
    assert (Z.abs (2 ^ Zpos p) = 2 ^ Zpos p) by (apply Z.abs_eq; lia).
    change (2 ^ 24) with 16777216 in Hlo, HA.
    nia.
  - unfold Qabs, Qle in Hle; simpl Qnum in Hle; simpl Qden in Hle.
    rewrite Habs, Z.mul_1_r, Pos2Z.inj_pow in Hle.
    split; [lia|]. simpl Z.opp. lia.
Qed.

(** Two thousand million fits a [long]. *)
Lemma in_long_small (z : Z) : - 2000000000 <= z <= 2000000000 -> in_long z = true.
Proof.
  intros Hz. unfold in_long, LONG_MIN, LONG_MAX.
  change (2 ^ 31) with 2147483648.
  apply andb_true_iff; split; apply Z.leb_le; lia.
Qed.

(** Shifting an even mantissa loses no bit. *)
Lemma shr_1_exact (m : Z) :
  0 <= m -> shr_1 (exact_record (2 * m)) = exact_record m.
Proof.
  intros Hm. destruct m as [| p | p]; [reflexivity | reflexivity | lia].
Qed.

Lemma iter_shr_1_exact (p : positive) (m : Z) :
  0 <= m ->
  iter_pos shr_1 p (exact_record (m * 2 ^ Zpos p)) = exact_record m.
Proof.
  revert m. induction p as [p IH | p IH |]; intros m Hm; cbn [iter_pos].
  - pow2_pos Hp (Zpos p).
    replace (m * 2 ^ Zpos p~1) with (2 * (m * 2 ^ Zpos p * 2 ^ Zpos p)).
    + rewrite shr_1_exact by nia. rewrite IH by nia. apply IH. assumption.
    + rewrite <- Z.mul_assoc, <- Z.pow_add_r, Z.mul_assoc, (Z.mul_comm 2 m),
        <- Z.mul_assoc, <- Z.pow_succ_r by lia.
      do 2 f_equal. lia.
  - pow2_pos Hp (Zpos p).
    replace (m * 2 ^ Zpos p~0) with (m * 2 ^ Zpos p * 2 ^ Zpos p).
    + rewrite IH by nia. apply IH. assumption.
    + rewrite <- Z.mul_assoc, <- Z.pow_add_r by lia.
      do 2 f_equal. lia.
  - change (2 ^ 1) with 2. rewrite Z.mul_comm. apply shr_1_exact. assumption.
Qed.

Lemma scaled_le_mag (v m e : Z) : scaled v m e -> 0 <= v -> le_mag v m e.
Proof.
  intros [He ->] Hv. split; [assumption|].
  pow2_pos Hpow2 (- e). nia.
Qed.

(** Bringing an exactly scaled integer below [2^24] to the binary32
    exponent loses nothing. *)
Lemma shr_fexp_exact (v m e : Z) :
  scaled v m e -> 0 <= v < 2 ^ 24 ->
  exists m' e',
    shr_fexp Float32.prec Float32.emax m e loc_Exact = (exact_record m', e') /\
    scaled v m' e'.
Proof.
  intros Hsc Hv.
  pose proof (le_mag_digits v m e 24 (scaled_le_mag _ _ _ Hsc (proj1 Hv))
                (proj2 Hv) ltac:(lia)) as Hd.
  destruct Hsc as [He Hm].
  unfold shr_fexp, shr. fold fexp32. rewrite fexp32_eq.
  change (shr_record_of_loc m loc_Exact) with (exact_record m).
  destruct (Z.max (Zdigits2 m + e - 24) (-149) - e) as [| n | n] eqn:En.
  - exists m, e. split; [reflexivity | split; assumption].
  - exists (v * 2 ^ (- (e + Zpos n))), (e + Zpos n).
    assert (He' : e + Zpos n <= 0) by lia.
    split; [|split; [assumption | reflexivity]].
    f_equal. rewrite Hm.
    replace (- e) with (- (e + Zpos n) + Zpos n) by ring.
    rewrite Z.pow_add_r by lia. rewrite Z.mul_assoc.
    apply iter_shr_1_exact.
    pow2_pos Hpow2 (- (e + Zpos n)). nia.
  - exists m, e. split; [reflexivity | split; assumption].
Qed.

(** Rounding to binary32 an integer below [2^24] keeps it. *)
Lemma binary_round_aux_exact (s : bool) (v m e : Z) :
  scaled v m e -> 0 < v < 2 ^ 24 ->
  holds_integer s v (binary_round_aux Float32.prec Float32.emax s m e loc_Exact).
Proof.
  intros Hsc Hv. unfold binary_round_aux.
  destruct (shr_fexp_exact v m e Hsc ltac:(lia)) as (m1 & e1 & -> & Hsc1).
  change (loc_of_shr_record (exact_record m1)) with loc_Exact.
  change (round_nearest_even (shr_m (exact_record m1)) loc_Exact) with m1.
  destruct (shr_fexp_exact v m1 e1 Hsc1 ltac:(lia)) as (m2 & e2 & -> & Hsc2).
  simpl shr_m. destruct Hsc2 as [He2 Hm2].
  pow2_pos Hpow2 (- e2).
  destruct m2 as [| p | p]; [nia | | nia].
  destruct (Z.leb_spec e2 (Float32.emax - Float32.prec)) as [_ | Hgt].
  - simpl. repeat split; assumption.
  - unfold Float32.emax, Float32.prec in Hgt. lia.
Qed.

Lemma iter_xO_pow (p d : positive) :
  Zpos (Pos.iter xO p d) = Zpos p * 2 ^ Zpos d.
Proof.
  induction d as [| d IH] using Pos.peano_ind.
  - simpl. lia.
  - rewrite Pos.iter_succ, Pos2Z.inj_xO, IH, Pos2Z.inj_succ, Z.pow_succ_r by lia.
    ring.
Qed.

(** An integer below [2^24] in magnitude converts to [float] exactly. *)
Lemma of_Z_exact (p : positive) (s : bool) :
  Zpos p < 2 ^ 24 ->
  holds_integer s (Zpos p) (Float32.of_Z (cond_Zopp s (Zpos p))).
Proof.
  intros Hp.
  assert (E : Float32.of_Z (cond_Zopp s (Zpos p))
              = binary_round Float32.prec Float32.emax s p 0)
    by (destruct s; reflexivity).
  rewrite E. unfold binary_round, shl_align.
  destruct (fexp Float32.prec Float32.emax (Zpos (digits2_pos p) + 0) - 0)
    as [| d | d] eqn:Ed.
  - apply binary_round_aux_exact; [|lia]. split; [lia|]. simpl. lia.
  - apply binary_round_aux_exact; [|lia]. split; [lia|]. simpl. lia.
  - apply binary_round_aux_exact; [|lia].
    assert (Hf : fexp Float32.prec Float32.emax (Zpos (digits2_pos p) + 0)
                 = Zneg d) by lia.
    rewrite Hf. split; [lia|]. simpl Z.opp. apply iter_xO_pow.
Qed.

(** Dividing by 5 a float that holds [5 * r] gives a float that holds [r]. *)
Lemma div5_exact (s : bool) (r : Z) (x : Float32.float) :
  0 < r -> 5 * r < 2 ^ 24 ->
  holds_integer s (5 * r) x ->
  holds_integer s r (Float32.div x (Float32.of_Z 5)).
Proof.
  intros Hr Hlt Hx.
  destruct x as [| | | s' m e]; try contradiction.
  destruct Hx as [-> Hsc].
  change (Float32.of_Z 5) with (S754_finite false 10485760 (-21)).
  unfold Float32.div, SFdiv, SFdiv_core_binary.
  change (Zdigits2 (Zpos 10485760)) with 24.
  fold fexp32. rewrite fexp32_eq.
  pose proof (le_mag_digits _ _ _ 24 (scaled_le_mag _ _ _ Hsc ltac:(lia)) Hlt
                ltac:(lia)) as Hd.
  destruct Hsc as [He Hm].
  set (e0 := Z.min (Z.max (Zdigits2 (Zpos m) + e - (24 + -21) - 24) (-149))
                   (e - -21)) in *.
  assert (He0 : e0 <= 0) by (unfold e0; lia).
  assert (Hs : 0 <= e - -21 - e0) by (unfold e0; lia).
  set (m' := match e - -21 - e0 with
             | 0 => Zpos m
             | Zpos _ => Z.shiftl (Zpos m) (e - -21 - e0)
             | Zneg _ => 0
             end).
  assert (Hm' : m' = r * 2 ^ (- e0) * 10485760).
  { assert (Hm1 : m' = Zpos m * 2 ^ (e - -21 - e0)).
    { unfold m'. destruct (e - -21 - e0) as [| n | n] eqn:En.
      - rewrite Z.pow_0_r. lia.
      - apply Z.shiftl_mul_pow2. lia.
      - lia. }
    rewrite Hm1, Hm.
    assert (Hpow : 2 ^ (- e) * 2 ^ (e - -21 - e0) = 2 ^ 21 * 2 ^ (- e0)).
    { rewrite <- !Z.pow_add_r by lia. f_equal. lia. }
    change (2 ^ 21) with 2097152 in Hpow.
    rewrite <- Z.mul_assoc, Hpow. ring. }
  clearbody m'.
  assert (Ediv : Z.div_eucl m' (Zpos 10485760) = (r * 2 ^ (- e0), 0)).
  { pose proof (Z.div_mul (r * 2 ^ (- e0)) 10485760 ltac:(lia)) as Hq.
    pose proof (Z.mod_mul (r * 2 ^ (- e0)) 10485760 ltac:(lia)) as Hr0.
    rewrite <- Hm' in Hq, Hr0. unfold Z.div in Hq. unfold Z.modulo in Hr0.
    destruct (Z.div_eucl m' 10485760) as [q0 r0]. simpl in Hq, Hr0.
    congruence. }
  rewrite Ediv.
  change (new_location 10485760 0) with loc_Exact.
  rewrite xorb_false_r.
  apply binary_round_aux_exact; [|lia].
  split; [assumption | reflexivity].
Qed.

(** Rounding a fraction whose value is an integer. *)
Lemma round_Q_scaled (z : Z) (p : positive) :
  round_Q ((z * 2 ^ Zpos p) # (2 ^ p)) = z.
Proof.
  unfold round_Q, Qle_bool, Qtrunc, Qminus, Qplus, Qopp.
  cbn [Qnum Qden].
  rewrite Z.mul_1_r, Z.mul_0_l, Pos2Z.inj_mul, Pos2Z.inj_pow.
  pow2_pos Hp (Zpos p).
  change (Z.opp 1) with (-1).
  destruct (Z.leb_spec 0 (z * 2 ^ Zpos p)) as [Hge | Hlt].
  - replace (z * 2 ^ Zpos p * 2 + 1 * 2 ^ Zpos p)
      with ((1 + z * 2) * 2 ^ Zpos p) by ring.
    rewrite (Z.mul_comm (2 ^ Zpos p) 2).
    rewrite Z.quot_mul_cancel_r by lia.
    rewrite Z.quot_add by nia. reflexivity.
  - replace (z * 2 ^ Zpos p * 2 + -1 * 2 ^ Zpos p)
      with ((-1 + z * 2) * 2 ^ Zpos p) by ring.
    rewrite (Z.mul_comm (2 ^ Zpos p) 2).
    rewrite Z.quot_mul_cancel_r by lia.
    rewrite Z.quot_add by nia. reflexivity.
Qed.

Lemma cond_Zopp_mul (s : bool) (a b : Z) :
  cond_Zopp s (a * b) = cond_Zopp s a * b.
Proof. destruct s; simpl; ring. Qed.

(** [round] of a float that holds an integer is that integer. *)
Lemma round_float_exact (s : bool) (v : Z) (x : Float32.float) :
  0 < v < 2 ^ 31 -> holds_integer s v x ->
  round_float x = Some (cond_Zopp s v).
Proof.
  intros Hv Hx.
  destruct x as [| | | s' m e]; try contradiction.
  destruct Hx as [-> [He Hm]].
  assert (Hround : round_Q
            match e with
            | Zneg p => cond_Zopp s (Zpos m) # 2 ^ p
            | _ => inject_Z (cond_Zopp s (Zpos m) * 2 ^ e)
            end = cond_Zopp s v).
  { rewrite Hm, cond_Zopp_mul. destruct e as [| p | p]; [| lia |].
    - rewrite !Z.mul_1_r. apply round_int_id.
    - apply round_Q_scaled. }
  unfold round_float, Float32.to_Q. rewrite Hround.
  assert (in_long (cond_Zopp s v) = true) as ->; [|reflexivity].
  unfold in_long, LONG_MIN, LONG_MAX.
  apply andb_true_iff; split; apply Z.leb_le; destruct s; simpl; lia.
Qed.

(** A multiple of 5 below [2^24] in magnitude, passed as a [float], is
    quantized to itself. *)
Lemma requantize (r : Z) :
  - 3355443 <= r <= 3355443 ->
  quantize (Float32.of_Z (r * 5)) = Some (r * 5).
Proof.
  intros Hr.
  assert (Hsign : forall (s : bool) (p : positive),
             Zpos p <= 3355443 ->
             quantize (Float32.of_Z (cond_Zopp s (Zpos (p * 5))))
             = Some (cond_Zopp s (Zpos p) * 5)).
  { intros s p Hp.
    change (2 ^ 24) with 16777216 in *.
    pose proof (of_Z_exact (p * 5) s) as H1.
    replace (Zpos (p * 5)) with (5 * Zpos p) in H1 at 2 by lia.
    specialize (H1 ltac:(change (2 ^ 24) with 16777216; lia)).
    apply div5_exact in H1; [|lia|change (2 ^ 24) with 16777216; lia].
    apply round_float_exact in H1; [|change (2 ^ 31) with 2147483648; lia].
    unfold quantize. rewrite H1. simpl.
    rewrite in_long_small; [reflexivity|]. destruct s; simpl; lia. }
  destruct r as [| p | p].
  - reflexivity.
  - apply (Hsign false p). lia.
  - apply (Hsign true p). lia.
Qed.

(** claim C9, amended: on every binary32 reading of magnitude at most ten
    million [quantize] returns a value, that value is a multiple of 5, and
    quantizing it again returns it unchanged. *)
Theorem quantize_idempotent (x : Float32.float) (q : Q) :
  Float32.valid x = true ->
  Float32.to_Q x = Some q ->
  (Qabs q <= 10000000)%Q ->
  exists h, quantize x = Some h /\ h mod 5 = 0 /\
            quantize (Float32.of_Z h) = Some h.
Proof.
  intros Hv Hq Hle.
  assert (Hdiv : mag_le 2000001 (Float32.div x (Float32.of_Z 5))).
  { destruct x as [s | s | | s m e]; try discriminate.
    - exact I.
    - apply (div5_mag 2000000); [|lia|reflexivity].
      apply (valid_le_mag 10000000 s m e q); try assumption. reflexivity. }
  destruct (mag_le_round 2000001 _ Hdiv ltac:(lia)) as (q' & Hq' & Hr).
  exists (round_Q q' * 5).
  assert (Hquant : quantize x = Some (round_Q q' * 5)).
  { unfold quantize, round_float. rewrite Hq'. simpl.
    rewrite (in_long_small (round_Q q')) by lia.
    rewrite (in_long_small (round_Q q' * 5)) by lia.
    reflexivity. }
  split; [exact Hquant|].
  split; [apply Z.mod_mul; lia|].
  apply requantize. lia.
Qed.

(** The reading 53.7 (as a binary32 number) is quantized to 55. *)
Lemma quantize_idempotent_witness :
  exists h,
    quantize (S754_finite false 14077133 (-18)) = Some h /\ h mod 5 = 0 /\
    quantize (Float32.of_Z h) = Some h.
Proof.
  apply (quantize_idempotent (S754_finite false 14077133 (-18))
                             (14077133 # 262144)).
  - reflexivity.
  - reflexivity.
  - vm_compute. discriminate.
Defined.

(** claim C9 as stated fails for readings far out of range.  The reading
    35000028.0 is quantized to 35000030; that integer, passed as a [float],
    is 35000032.0 and is quantized to 35000035.  The reading 2^34 has no
    quantized value: [round] would have to convert 3435973836.8 to a
    [long]. *)
Lemma quantize_not_idempotent_far_out :
  Float32.valid (Float32.of_Z 35000028) = true /\
  Float32.to_Q (Float32.of_Z 35000028) = Some (inject_Z 35000028) /\
  quantize (Float32.of_Z 35000028) = Some 35000030 /\
  quantize (Float32.of_Z 35000030) = Some 35000035 /\
  Float32.valid (Float32.of_Z (2 ^ 34)) = true /\
  Float32.to_Q (Float32.of_Z (2 ^ 34)) = Some (inject_Z (2 ^ 34)) /\
  quantize (Float32.of_Z (2 ^ 34)) = None.
Proof. repeat split. Qed.

(** Neither is there a quantized value for a reading that is not a number,
    which is what the sensor library answers when a read fails. *)
Lemma quantize_nan : quantize S754_nan = None /\ loop 50 (mesures_of S754_nan) = None.
Proof. split; reflexivity. Qed.

(** * Further properties of the sketch *)

(** ** Position, rotation and power over all integers *)

(** extra X1: for a non-negative humidity the position is the humidity
    brought down to a multiple of 5 and clamped to the two thresholds:
    [50 + 5 * position = min (max (h - h mod 5) 50) 80]. *)
Theorem positionMoteur_grid (h : Z) :
  0 <= h ->
  MIN_RATE_POWER + 5 * positionMoteur h
  = Z.min (Z.max (h - h mod 5) MIN_RATE_POWER) MAX_RATE_POWER.
Proof.
  intros Hh.
  destruct (region_cases h) as [H | [H | [H | H]]]; [lia | | |].
  - rewrite positionMoteur_low by assumption.
    pose proof (Z.mod_pos_bound h 5 ltac:(lia)).
    unfold MIN_RATE_POWER, MAX_RATE_POWER in *. lia.
  - rewrite positionMoteur_mid by assumption.
    unfold MIN_RATE_POWER, MAX_RATE_POWER in *.
    pose proof (Z.mod_pos_bound h 5 ltac:(lia)).
    pose proof (Z.div_mod (h - 50) 5 ltac:(lia)) as Hdm.
    assert (Hmod : (h - 50) mod 5 = h mod 5).
    { replace (h - 50) with (h + (-10) * 5) by ring. apply Z.mod_add. lia. }
    rewrite Hmod in Hdm. lia.
  - rewrite positionMoteur_high by assumption.
    unfold MIN_RATE_POWER, MAX_RATE_POWER, NB_STEPS in *.
    pose proof (Z.mod_pos_bound h 5 ltac:(lia)).
    pose proof (Z.div_mod h 5 ltac:(lia)) as Hdm.
    assert (16 <= h / 5) by (apply Z.div_le_lower_bound; lia).
    lia.
Qed.

Lemma positionMoteur_grid_witness :
  MIN_RATE_POWER + 5 * positionMoteur 63
  = Z.min (Z.max (63 - 63 mod 5) MIN_RATE_POWER) MAX_RATE_POWER.
Proof. apply (positionMoteur_grid 63). lia. Defined.

(** extra X2: whatever the two humidities, the rotation lies in
    [-NB_STEPS, NB_STEPS] and the move asked of the stepper is at most
    [ROTATION_MAX] in magnitude. *)
Theorem rotationMoteur_bounds (h_avant h : Z) :
  - NB_STEPS <= rotationMoteur h_avant h <= NB_STEPS /\
  Z.abs (rotationMoteur h_avant h * ROTATION_STEP) <= ROTATION_MAX.
Proof.
  assert (Hr : - NB_STEPS <= rotationMoteur h_avant h <= NB_STEPS).
  { unfold rotationMoteur.
    pose proof (positionMoteur_range h). pose proof (positionMoteur_range h_avant).
    destruct (Z.geb_spec (positionMoteur h) 0);
      destruct (Z.geb_spec (positionMoteur h_avant) 0); simpl;
      unfold NB_STEPS in *; lia. }
  split; [exact Hr|]. unfold NB_STEPS, ROTATION_STEP, ROTATION_MAX in *. lia.
Qed.

(** extra X3: the rotation is 0 exactly when one of the two humidities is
    negative or both have the same position. *)
Theorem rotationMoteur_zero_iff (h_avant h : Z) :
  rotationMoteur h_avant h = 0 <->
  h < 0 \/ h_avant < 0 \/ positionMoteur h = positionMoteur h_avant.
Proof.
  destruct (Z_lt_dec h 0) as [Hh | Hh].
  { split; [auto|]. intros _. apply rotationMoteur_invalid. auto. }
  destruct (Z_lt_dec h_avant 0) as [Ha | Ha].
  { split; [auto|]. intros _. apply rotationMoteur_invalid. auto. }
  rewrite rotationMoteur_valid by lia. lia.
Qed.

(** extra X4: when the humidity does not fall, the rotation is never
    positive, and it is negative exactly when the position rises. *)
Theorem rotationMoteur_direction (h_avant h : Z) :
  0 <= h_avant -> h_avant <= h ->
  rotationMoteur h_avant h <= 0 /\
  (rotationMoteur h_avant h < 0 <-> positionMoteur h_avant < positionMoteur h).
Proof.
  intros Ha Hle.
  rewrite rotationMoteur_valid by lia.
  pose proof (positionMoteur_mono h_avant h Hle). lia.
Qed.

Lemma rotationMoteur_direction_witness :
  rotationMoteur 55 70 <= 0 /\
  (rotationMoteur 55 70 < 0 <-> positionMoteur 55 < positionMoteur 70).
Proof. apply (rotationMoteur_direction 55 70); lia. Defined.

(** extra X5: for every integer the power is defined and lies in [0, 100];
    it is below [MIN_POWER] exactly for 51..54 and it is 100 exactly from
    [MAX_RATE_POWER] on. *)
Theorem puissanceMoteur_values (h : Z) :
  exists p, puissanceMoteur h = Some p /\ 0 <= p <= 100 /\
            (p < MIN_POWER <-> 50 < h < 55) /\
            (p = 100 <-> MAX_RATE_POWER <= h).
Proof.
  destruct (region_cases h) as [H | [H | [H | H]]].
  - exists MIN_POWER. rewrite puissanceMoteur_low by (unfold MIN_RATE_POWER; lia).
    unfold MIN_POWER, MAX_RATE_POWER. repeat split; lia.
  - exists MIN_POWER. rewrite puissanceMoteur_low by lia.
    unfold MIN_POWER, MIN_RATE_POWER, MAX_RATE_POWER in *. repeat split; lia.
  - eexists. split; [apply puissanceMoteur_mid; exact H|].
    destruct (quot5_bounds h H) as [_ Hb].
    unfold MIN_RATE_POWER, MAX_RATE_POWER, MIN_POWER in *.
    assert (Hk : (h - 50) / 5 = 0 <-> h < 55).
    { split; intros Hk.
      - pose proof (Z.div_mod (h - 50) 5 ltac:(lia)).
        pose proof (Z.mod_pos_bound (h - 50) 5 ltac:(lia)). lia.
      - apply Z.div_small. lia. }
    assert (Ck : (h - 50) / 5 = 0 \/ (h - 50) / 5 = 1 \/ (h - 50) / 5 = 2 \/
                 (h - 50) / 5 = 3 \/ (h - 50) / 5 = 4 \/ (h - 50) / 5 = 5) by lia.
    destruct Ck as [E | [E | [E | [E | [E | E]]]]]; rewrite E in *; simpl; lia.
  - exists 100. rewrite puissanceMoteur_high by assumption.
    unfold MIN_POWER, MAX_RATE_POWER in *. repeat split; lia.
Qed.

(** extra X6: away from 51..54 the power is the position times 16.67,
    rounded, and raised to the floor [MIN_POWER]. *)
Theorem puissance_of_position (h : Z) :
  ~ (50 < h < 55) ->
  puissanceMoteur h
  = Some (Z.max MIN_POWER
                (round_Q (inject_Z (positionMoteur h) * (1667 # 100)))).
Proof.
  intros Hx.
  destruct (region_cases h) as [H | [H | [H | H]]].
  - rewrite positionMoteur_neg by assumption.
    rewrite puissanceMoteur_low by (unfold MIN_RATE_POWER; lia). reflexivity.
  - rewrite positionMoteur_low by assumption.
    rewrite puissanceMoteur_low by lia. reflexivity.
  - rewrite positionMoteur_mid, puissanceMoteur_mid by assumption.
    destruct (quot5_bounds h H) as [_ Hb].
    destruct (round_steps _ Hb) as [_ ->].
    unfold MIN_RATE_POWER in H.
    assert (1 <= (h - 50) / 5) by (apply Z.div_le_lower_bound; lia).
    pose proof (step_power_range ((h - 50) / 5) ltac:(lia)).
    f_equal. lia.
  - rewrite positionMoteur_high, puissanceMoteur_high by assumption. reflexivity.
Qed.

Lemma puissance_of_position_witness :
  puissanceMoteur 70
  = Some (Z.max MIN_POWER
                (round_Q (inject_Z (positionMoteur 70) * (1667 # 100)))).
Proof. apply (puissance_of_position 70). lia. Defined.

(** ** Successive passes of [loop] *)

Lemma stepper_moves_app (a b : list event) :
  stepper_moves (a ++ b) = stepper_moves a ++ stepper_moves b.
Proof.
  induction a as [| e a IH]; [reflexivity|].
  destruct e; simpl; rewrite IH; reflexivity.
Qed.

Lemma displacement_app (a b : list event) :
  displacement (a ++ b) = displacement a + displacement b.
Proof.
  unfold displacement. rewrite stepper_moves_app.
  induction (stepper_moves a) as [| n l IH]; simpl; lia.
Qed.

(** What a completed steady pass leaves in [h_avant]. *)
Lemma loop_steady_state (h_avant st : Z) (m : Mesures) (evs : list event) :
  h_avant <> -1 -> loop h_avant m = Some (st, evs) ->
  quantize (humidite m) = Some st /\ st mod 5 = 0.
Proof.
  intros Hs Hl. unfold loop in Hl.
  destruct (Z.eqb_spec h_avant (-1)); [contradiction|].
  destruct (quantize (humidite m)) as [h|] eqn:Hq; [|discriminate].
  destruct (puissanceMoteur h); [|discriminate].
  injection Hl as <- _. split; [reflexivity|].
  apply (quantize_multiple_of_5 _ _ Hq).
Qed.



(** extra X8: once [h_avant] differs from -1 it never becomes -1 again,
    however many passes complete; after at least one pass it is a multiple
    of 5. *)
Theorem steady_is_absorbing
        (ms : list Mesures) (h_avant h' : Z) (evs : list event) :
  h_avant <> -1 -> run h_avant ms = Some (h', evs) ->
  phase_of h' = STEADY /\ (ms <> [] -> h' mod 5 = 0).
Proof.
  revert h_avant evs. induction ms as [| m ms IH]; intros h_avant evs Hs Hr.
  - simpl in Hr. injection Hr as <- _.
    split; [apply phase_of_steady; exact Hs | congruence].
  - simpl in Hr.
    destruct (loop h_avant m) as [[st e1]|] eqn:Hl; [|discriminate].
    destruct (run st ms) as [[h'' e2]|] eqn:Hrun; [|discriminate].
    injection Hr as <- _.
    destruct (loop_steady_state _ _ _ _ Hs Hl) as [_ Hmod].
    assert (Hst : st <> -1) by (intros ->; discriminate Hmod).
    destruct (IH st e2 Hst Hrun) as [Hph Hm].
    split; [exact Hph|]. intros _.
    destruct ms as [| m' ms']; [|apply Hm; discriminate].
    simpl in Hrun. injection Hrun as <- _. exact Hmod.
Qed.

Lemma steady_is_absorbing_witness :
  phase_of 65 = STEADY /\
  ([mesures_of (Float32.of_Z 80); mesures_of (Float32.of_Z 64)] <> [] ->
   65 mod 5 = 0).
Proof.
  eapply (steady_is_absorbing
            [mesures_of (Float32.of_Z 80); mesures_of (Float32.of_Z 64)] 50 65).
  - lia.
  - reflexivity.
Defined.

(** Passes from a non-negative [h_avant] over readings that quantize to
    non-negative humidities. *)
Lemma run_valid (ms : list Mesures) (h_avant : Z) :
  0 <= h_avant -> forallb reads_valid ms = true ->
  exists h' evs,
    run h_avant ms = Some (h', evs) /\ 0 <= h' /\
    displacement evs = (positionMoteur h_avant - positionMoteur h') * ROTATION_STEP /\
    Z.abs (displacement evs) <= ROTATION_MAX /\
    List.length (stepper_moves evs) = List.length ms.
Proof.
  revert h_avant. induction ms as [| m ms IH]; intros h_avant Hh Hv.
  - exists h_avant, []. simpl. unfold displacement, ROTATION_MAX. simpl.
    repeat split; lia.
  - simpl in Hv. apply andb_true_iff in Hv. destruct Hv as [Hm Hv].
    unfold reads_valid in Hm.
    destruct (quantize (humidite m)) as [h|] eqn:Hq; [|discriminate].
    apply Z.leb_le in Hm.
    destruct (loop_steady h_avant h m ltac:(lia) Hq) as (p & _ & Hl).
    destruct (IH h Hm Hv) as (h' & evs & Hrun & Hh' & Hd & _ & Hlen).
    exists h'. eexists. simpl. rewrite Hl, Hrun.
    split; [reflexivity|]. split; [exact Hh'|].
    assert (Hsum : displacement
                     ([AffichageEcranOLED (temperature m) (humidite m) (pression m) p;
                       StepperStep (rotationMoteur h_avant h * ROTATION_STEP);
                       SerialPrintln; Delay DELAY] ++ evs)
                   = (positionMoteur h_avant - positionMoteur h') * ROTATION_STEP).
    { rewrite displacement_app, Hd. unfold displacement at 1. simpl.
      rewrite rotationMoteur_valid by lia. ring. }
    split; [exact Hsum|]. split.
    + rewrite Hsum.
      pose proof (positionMoteur_range h_avant).
      pose proof (positionMoteur_range h').
      pose proof (positionMoteur_nonneg h_avant Hh).
      pose proof (positionMoteur_nonneg h' Hh').
      unfold NB_STEPS, ROTATION_STEP, ROTATION_MAX in *. lia.
    + rewrite stepper_moves_app, List.length_app. simpl. rewrite Hlen. reflexivity.
Qed.

(** extra X9: over any number of steady passes whose readings quantize to
    non-negative humidities, starting from a non-negative [h_avant], every
    pass completes and asks one move of the stepper, and the moves add up
    to the position before minus the position after, times
    [ROTATION_STEP]: never more than [ROTATION_MAX] in magnitude. *)
Theorem steady_displacement (ms : list Mesures) (h_avant : Z) :
  0 <= h_avant -> forallb reads_valid ms = true ->
  exists h' evs,
    run h_avant ms = Some (h', evs) /\
    displacement evs = (positionMoteur h_avant - positionMoteur h') * ROTATION_STEP /\
    Z.abs (displacement evs) <= ROTATION_MAX /\
    List.length (stepper_moves evs) = List.length ms.
Proof.
  intros Hh Hv.
  destruct (run_valid ms h_avant Hh Hv) as (h' & evs & Hrun & _ & Hd & Hb & Hl).
  exists h', evs. repeat split; assumption.
Qed.

Lemma steady_displacement_witness :
  exists h' evs,
    run 50 [mesures_of (Float32.of_Z 80); mesures_of (Float32.of_Z 64);
            mesures_of (Float32.of_Z 71)] = Some (h', evs) /\
    displacement evs = (positionMoteur 50 - positionMoteur h') * ROTATION_STEP /\
    Z.abs (displacement evs) <= ROTATION_MAX /\
    List.length (stepper_moves evs) = 3%nat.
Proof.
  apply (steady_displacement
           [mesures_of (Float32.of_Z 80); mesures_of (Float32.of_Z 64);
            mesures_of (Float32.of_Z 71)] 50).
  - lia.
  - reflexivity.
Defined.

(** extra X10: from power-up ([h_avant = -1]) with a non-negative first
    reading, the moves asked over the following valid passes add up to the
    position of the truncated first reading minus the final position,
    times [ROTATION_STEP]: the first reading itself moves nothing. *)
Theorem power_up_displacement (m0 : Mesures) (ms : list Mesures) (v : Z) :
  float_to_int (humidite m0) = Some v -> 0 <= v ->
  forallb reads_valid ms = true ->
  exists h' evs,
    run (-1) (m0 :: ms) = Some (h', evs) /\
    displacement evs = (positionMoteur v - positionMoteur h') * ROTATION_STEP.
Proof.
  intros Hf Hv Hall.
  destruct (run_valid ms v Hv Hall) as (h' & evs & Hrun & _ & Hd & _).
  exists h', (ClearDisplay :: evs).
  simpl. unfold loop at 1. simpl. rewrite Hf, Hrun. split; [reflexivity|].
  unfold displacement in *. simpl. exact Hd.
Qed.

Lemma power_up_displacement_witness :
  exists h' evs,
    run (-1) [mesures_of (Float32.of_Z 72); mesures_of (Float32.of_Z 72)]
    = Some (h', evs) /\
    displacement evs = (positionMoteur 72 - positionMoteur h') * ROTATION_STEP.
Proof.
  apply (power_up_displacement (mesures_of (Float32.of_Z 72))
                               [mesures_of (Float32.of_Z 72)] 72).
  - reflexivity.
  - lia.
  - reflexivity.
Defined.

(** extra X11: a pass whose reading quantizes to a negative humidity asks
    a move of 0, and so does the pass after it, whatever its reading: the
    move between the positions before and after is never asked, while
    [h_avant] takes the last humidity. *)
Theorem invalid_reading_loses_move (h_avant h1 h2 : Z) (m1 m2 : Mesures) :
  h_avant <> -1 ->
  quantize (humidite m1) = Some h1 -> h1 < 0 ->
  quantize (humidite m2) = Some h2 ->
  exists evs, run h_avant [m1; m2] = Some (h2, evs) /\
              stepper_moves evs = [0; 0].
Proof.
  intros Hs Hq1 Hneg Hq2.
  destruct (loop_steady h_avant h1 m1 Hs Hq1) as (p1 & _ & Hl1).
  assert (Hs1 : h1 <> -1).
  { destruct (quantize_multiple_of_5 _ _ Hq1) as [Hmod _].
    intros ->. discriminate Hmod. }
  destruct (loop_steady h1 h2 m2 Hs1 Hq2) as (p2 & _ & Hl2).
  eexists. simpl. rewrite Hl1, Hl2. split; [reflexivity|].
  simpl. rewrite !rotationMoteur_invalid by auto. reflexivity.
Qed.

Lemma invalid_reading_loses_move_witness :
  exists evs,
    run 50 [mesures_of (Float32.of_Z (-7)); mesures_of (Float32.of_Z 80)]
    = Some (80, evs) /\
    stepper_moves evs = [0; 0].
Proof.
  apply (invalid_reading_loses_move 50 (-5) 80).
  - lia.
  - reflexivity.
  - lia.
  - reflexivity.
Defined.

(** ** More on [quantize] *)

(** The sign given to the rounding only sets the sign of the result. *)
Lemma binary_round_aux_opp (s : bool) (m e : Z) (l : location) :
  binary_round_aux Float32.prec Float32.emax (negb s) m e l
  = SFopp (binary_round_aux Float32.prec Float32.emax s m e l).
Proof.
  unfold binary_round_aux.
  destruct (shr_fexp Float32.prec Float32.emax m e l) as [mrs' e'].
  destruct (shr_fexp Float32.prec Float32.emax _ e' loc_Exact) as [mrs'' e''].
  destruct (shr_m mrs'') as [| p | p]; try reflexivity.
  destruct (e'' <=? Float32.emax - Float32.prec); reflexivity.
Qed.

(** Dividing the opposite by 5 gives the opposite. *)
Lemma div5_opp (x : Float32.float) :
  Float32.div (SFopp x) (Float32.of_Z 5) = SFopp (Float32.div x (Float32.of_Z 5)).
Proof.
  change (Float32.of_Z 5) with (S754_finite false 10485760 (-21)).
  destruct x as [s | s | | s m e]; try reflexivity.
  - destruct s; reflexivity.
  - destruct s; reflexivity.
  - unfold Float32.div, SFdiv, SFopp at 1.
    destruct (SFdiv_core_binary Float32.prec Float32.emax (Zpos m) e
                (Zpos 10485760) (-21)) as [[mz ez] lz].
    rewrite !xorb_false_r. apply binary_round_aux_opp.
Qed.

(** [round] is odd. *)
Lemma round_Q_opp (n : Z) (d : positive) :
  round_Q ((- n) # d) = - round_Q (n # d).
Proof.
  unfold round_Q, Qle_bool, Qtrunc, Qminus, Qplus, Qopp. cbn [Qnum Qden].
  rewrite !Z.mul_1_r, !Z.mul_0_l, Pos2Z.inj_mul.
  change (Z.opp 1) with (-1).
  destruct (Z.leb_spec 0 n) as [Hn | Hn]; destruct (Z.leb_spec 0 (- n)) as [Hm | Hm];
    try lia.
  - assert (n = 0) by lia. subst n. simpl.
    rewrite Z.quot_small by lia. reflexivity.
  - rewrite <- Z.quot_opp_l by lia. f_equal. ring.
  - rewrite <- Z.quot_opp_l by lia. f_equal. ring.
Qed.

Lemma round_float_opp (y : Float32.float) (r : Z) :
  round_float y = Some r -> - 2 ^ 31 < r -> round_float (SFopp y) = Some (- r).
Proof.
  unfold round_float. intros Hr Hlo.
  destruct y as [s | s | | s m e]; try discriminate.
  - change (Some 0 = Some r) in Hr. injection Hr as <-. reflexivity.
  - simpl Float32.to_Q in *.
    assert (Hopp : forall c, cond_Zopp (negb s) c = - cond_Zopp s c)
      by (intros c; destruct s; simpl; ring).
    rewrite Hopp.
    set (q := match e with
              | Z.neg p => cond_Zopp s (Z.pos m) # 2 ^ p
              | _ => inject_Z (cond_Zopp s (Z.pos m) * 2 ^ e)
              end) in *.
    assert (E : round_Q match e with
                        | Z.neg p => - cond_Zopp s (Z.pos m) # 2 ^ p
                        | _ => inject_Z (- cond_Zopp s (Z.pos m) * 2 ^ e)
                        end = - round_Q q).
    { unfold q. destruct e as [| p | p].
      - unfold inject_Z. rewrite Z.mul_opp_l. apply round_Q_opp.
      - unfold inject_Z. rewrite Z.mul_opp_l. apply round_Q_opp.
      - apply round_Q_opp. }
    cbv beta iota zeta in Hr. cbv zeta. rewrite E.
    destruct (in_long (round_Q q)) eqn:Hin; [|discriminate].
    injection Hr as <-.
    unfold in_long, LONG_MIN, LONG_MAX in *.
    apply andb_true_iff in Hin. destruct Hin as [H1 H2].
    apply Z.leb_le in H1, H2.
    assert (in_ok : (- 2 ^ 31 <=? - round_Q q) && (- round_Q q <=? 2 ^ 31 - 1) = true).
    { apply andb_true_iff; split; apply Z.leb_le; lia. }
    rewrite in_ok. reflexivity.
Qed.

(** extra X12: [quantize] is odd: if a reading is quantized to [h], the
    opposite reading is quantized to [- h]. *)
Theorem quantize_odd (x : Float32.float) (h : Z) :
  quantize x = Some h -> quantize (SFopp x) = Some (- h).
Proof.
  unfold quantize. rewrite div5_opp.
  destruct (round_float (Float32.div x (Float32.of_Z 5))) as [r|] eqn:Hr;
    [|discriminate].
  cbv zeta. destruct (in_long (r * 5)) eqn:Hin; [|discriminate].
  intros [= <-].
  unfold in_long, LONG_MIN, LONG_MAX in Hin.
  apply andb_true_iff in Hin. destruct Hin as [H1 H2].
  apply Z.leb_le in H1, H2. change (2 ^ 31) with 2147483648 in *.
  rewrite (round_float_opp _ r Hr) by (change (2 ^ 31) with 2147483648; lia).
  assert (in_long (- r * 5) = true) as ->.
  { unfold in_long, LONG_MIN, LONG_MAX. change (2 ^ 31) with 2147483648.
    apply andb_true_iff; split; apply Z.leb_le; lia. }
  f_equal. ring.
Qed.

Lemma quantize_odd_witness :
  quantize (SFopp (Float32.of_Z 53)) = Some (- 55).
Proof. apply (quantize_odd (Float32.of_Z 53) 55). reflexivity. Defined.

Lemma Zrange_In (lo : Z) (n : nat) (z : Z) :
  lo <= z < lo + Z.of_nat n -> In z (Zrange lo n).
Proof.
  intros Hz. unfold Zrange. apply in_map_iff.
  exists (Z.to_nat (z - lo)). split; [lia|].
  apply in_seq. lia.
Qed.

(** extra X13: an integer reading between -1000 and 1000 is quantized to
    the multiple of 5 nearest to it (at most 2 away). *)
Theorem quantize_integer_reading (n : Z) :
  - 1000 <= n <= 1000 ->
  exists q, quantize (Float32.of_Z n) = Some q /\ q mod 5 = 0 /\ Z.abs (q - n) <= 2.
Proof.
  intros Hn.
  assert (Hall : forallb nearest5_ok (Zrange (-1000) 2001) = true)
    by (vm_compute; reflexivity).
  rewrite forallb_forall in Hall.
  assert (Hin : In n (Zrange (-1000) 2001)) by (apply Zrange_In; lia).
  specialize (Hall n Hin). unfold nearest5_ok in Hall.
  destruct (quantize (Float32.of_Z n)) as [q|]; [|discriminate].
  apply andb_true_iff in Hall. destruct Hall as [H1 H2].
  apply Z.eqb_eq in H1. apply Z.leb_le in H2.
  exists q. repeat split; assumption.
Qed.

Lemma quantize_integer_reading_witness :
  exists q, quantize (Float32.of_Z 53) = Some q /\ q mod 5 = 0 /\
            Z.abs (q - 53) <= 2.
Proof. apply (quantize_integer_reading 53). lia. Defined.

(** Truncation does not raise the magnitude. *)
Lemma Qtrunc_bound (q : Q) (B : Z) :
  (Qabs q <= inject_Z B)%Q -> - B <= Qtrunc q <= B.
Proof.
  destruct q as [n d]. unfold Qabs, Qle, Qtrunc, inject_Z. cbn [Qnum Qden].
  rewrite Z.mul_1_r. intros Hle.
  assert (HB : 0 <= B) by nia.
  destruct (Z_le_dec 0 n) as [Hn | Hn].
  - rewrite Z.quot_div_nonneg by lia.
    assert (0 <= n / Zpos d) by (apply Z.div_pos; lia).
    assert (n / Zpos d < B + 1) by (apply Z.div_lt_upper_bound; lia).
    lia.
  - replace n with (- (- n)) by ring. rewrite Z.quot_opp_l by lia.
    rewrite Z.quot_div_nonneg by lia.
    assert (0 <= - n / Zpos d) by (apply Z.div_pos; lia).
    assert (- n / Zpos d < B + 1) by (apply Z.div_lt_upper_bound; lia).
    lia.
Qed.

(** On a reading of magnitude at most ten million [quantize] is defined. *)
Lemma quantize_defined (x : Float32.float) (q : Q) :
  Float32.valid x = true -> Float32.to_Q x = Some q ->
  (Qabs q <= 10000000)%Q ->
  exists h, quantize x = Some h /\ - 10000005 <= h <= 10000005.
Proof.
  intros Hv Hq Hle.
  assert (Hdiv : mag_le 2000001 (Float32.div x (Float32.of_Z 5))).
  { destruct x as [s | s | | s m e]; try discriminate.
    - exact I.
    - apply (div5_mag 2000000); [|lia|reflexivity].
      apply (valid_le_mag 10000000 s m e q); try assumption. reflexivity. }
  destruct (mag_le_round 2000001 _ Hdiv ltac:(lia)) as (q' & Hq' & Hr).
  exists (round_Q q' * 5). split; [|lia].
  unfold quantize, round_float. rewrite Hq'. simpl.
  rewrite (in_long_small (round_Q q')) by lia.
  rewrite (in_long_small (round_Q q' * 5)) by lia.
  reflexivity.
Qed.

Lemma in_range_spec (m : Mesures) :
  in_range m = true ->
  exists q, Float32.valid (humidite m) = true /\
            Float32.to_Q (humidite m) = Some q /\ (Qabs q <= 10000000)%Q.
Proof.
  unfold in_range. destruct (Float32.to_Q (humidite m)) as [q|]; [|discriminate].
  intros H. apply andb_true_iff in H. destruct H as [Hv Hle].
  exists q. repeat split; [assumption|]. apply Qle_bool_iff. exact Hle.
Qed.

(** A pass on a reading in range completes, first pass or not. *)
Lemma loop_in_range (h_avant : Z) (m : Mesures) :
  in_range m = true ->
  exists st evs, loop h_avant m = Some (st, evs) /\ - 10000005 <= st <= 10000005.
Proof.
  intros Hin. destruct (in_range_spec m Hin) as (q & Hv & Hq & Hle).
  destruct (Z.eq_dec h_avant (-1)) as [-> | Hs].
  - pose proof (Qtrunc_bound q 10000000 Hle) as Hb.
    exists (Qtrunc q), [ClearDisplay]. split; [|lia].
    unfold loop, float_to_int. simpl. rewrite Hq. simpl.
    rewrite in_long_small by lia. reflexivity.
  - destruct (quantize_defined _ q Hv Hq Hle) as (h & Hquant & Hb).
    destruct (loop_steady h_avant h m Hs Hquant) as (p & _ & Hl).
    eexists _, _. split; [exact Hl | exact Hb].
Qed.

(** extra X14: as long as every humidity read is a binary32 number of
    magnitude at most ten million, every pass completes, from power-up or
    from any [h_avant]: no conversion to an integer is ever undefined. *)
Theorem run_in_range (ms : list Mesures) (h_avant : Z) :
  forallb in_range ms = true ->
  exists h' evs, run h_avant ms = Some (h', evs).
Proof.
  revert h_avant. induction ms as [| m ms IH]; intros h_avant Hall.
  - exists h_avant, []. reflexivity.
  - simpl in Hall. apply andb_true_iff in Hall. destruct Hall as [Hm Hall].
    destruct (loop_in_range h_avant m Hm) as (st & e1 & Hl & _).
    destruct (IH st Hall) as (h' & e2 & Hrun).
    exists h', (e1 ++ e2). simpl. rewrite Hl, Hrun. reflexivity.
Qed.

Lemma run_in_range_witness :
  exists h' evs,
    run (-1) [mesures_of (Float32.of_Z 53); mesures_of (Float32.of_Z (-7));
              mesures_of (Float32.of_Z 9999999)] = Some (h', evs).
Proof.
  apply (run_in_range
           [mesures_of (Float32.of_Z 53); mesures_of (Float32.of_Z (-7));
            mesures_of (Float32.of_Z 9999999)] (-1)).
  reflexivity.
Defined.

(** ** [setup] *)

(** extra X15: [setup] returns exactly when the sensor and the display both
    initialise; it drives the stepper exactly then, ending on the homing
    move of twice [ROTATION_MAX]; it asks the display only when the sensor
    answered; and in every case it starts by opening the serial port and
    driving the relay pin low. *)
Theorem setup_failure_behaviour (bme_ok ecran_ok : bool) :
  (snd (setup bme_ok ecran_ok) = Returns <-> bme_ok = true /\ ecran_ok = true) /\
  existsb is_motor_call (fst (setup bme_ok ecran_ok)) = bme_ok && ecran_ok /\
  existsb is_ecran_call (fst (setup bme_ok ecran_ok)) = bme_ok /\
  firstn 3 (fst (setup bme_ok ecran_ok))
  = [SerialBegin 9600; PinModeOutput pinRelais; DigitalWriteLow pinRelais] /\
  (snd (setup bme_ok ecran_ok) = Returns ->
   last (fst (setup bme_ok ecran_ok)) (SerialBegin 0)
   = StepperHome (2 * ROTATION_MAX)).
Proof.
  destruct bme_ok, ecran_ok; repeat split; simpl; intros;
    try reflexivity; try discriminate; try tauto;
    match goal with H : _ /\ _ |- _ => destruct H; discriminate end.
Qed.
